(** * group_conv.py: finite groups as multiplication tables and matrix sets

    A shallow embedding of the four functions of [group_conv.py]
    ([identity], [inverses], [make_multiplication_table] and
    [regular_representation]) together with the NumPy primitives they are
    written with, and the properties of the specification proved about them.

    Conventions of the embedding.
    - An integer array of shape [n, n] is a [list (list Z)] (a list of rows);
      [shape[0]] is the length of the outer list.  The functions on tables
      are modelled on n×n input (every row of length n), which is what
      every statement below assumes through [square].
    - A float64 array is a list structure of primitive binary64 floats.  The
      array handed to [make_multiplication_table] carries its [shape]
      explicitly, since the function reads it before anything else.
    - A Python exception is a value of [exn]; a function that may raise
      returns a [result].
    - Index arrays returned by [np.nonzero] hold naturals; integer arrays
      used as indices hold [Z] and go through NumPy's index normalisation
      (negative indices wrap once, anything else out of range raises). *)

From Stdlib Require Import Floats.
From stdpp Require Import base numbers list strings.

Set Warnings "-inexact-float".
Set Default Proof Using "Type".

Open Scope Z_scope.
Open Scope nat_scope.

(** ** Exceptions and results *)

Inductive exn : Type :=
  | ValueError (msg : string)
  | AssertionError
  | IndexError.

Inductive result (A : Type) : Type :=
  | Ok (a : A)
  | Raise (e : exn).
Arguments Ok {A} a.
Arguments Raise {A} e.

#[global] Instance result_ret : MRet result := λ A a, Ok a.
#[global] Instance result_bind : MBind result := λ A B f m,
  match m with
  | Ok a => f a
  | Raise e => Raise e
  end.

#[global] Instance float_inhabited : Inhabited float := populate 0%float.

(** ** The NumPy primitives used by the module *)

Module np.

(** [np.arange(n)]: the integers 0, 1, ..., n-1. *)
Definition arange (n : nat) : list Z := seqZ 0 (Z.of_nat n).

(** [np.all] over a one-dimensional boolean array. *)
Definition all (b : list bool) : bool := forallb id b.

(** [np.nonzero] of a one-dimensional boolean array: the positions that
    hold [True], in increasing order. *)
Definition nonzero (b : list bool) : list nat :=
  filter (λ i, b !! i = Some true) (seq 0 (length b)).

(** [np.nonzero] of a two-dimensional boolean array.  NumPy returns the
    coordinates in row-major order as one array per axis; here they are
    the (row, column) pairs, and the per-axis arrays are their
    projections. *)
Definition nonzero2 (b : list (list bool)) : list (nat * nat) :=
  mjoin (imap (λ i row, pair i <$> nonzero row) b).

(** [np.nonzero] of a three-dimensional boolean array, in row-major order
    of (axis 0, axis 1, axis 2). *)
Definition nonzero3 (b : list (list (list bool))) : list (nat * nat * nat) :=
  mjoin (imap (λ k plane, (λ ij, (k, ij.1, ij.2)) <$> nonzero2 plane) b).

(** [np.zeros] of shape [n, m] and [n, m, p], with the zero of the dtype. *)
Definition zeros2 {A} (zero : A) (n m : nat) : list (list A) :=
  replicate n (replicate m zero).
Definition zeros3 {A} (zero : A) (n m p : nat) : list (list (list A)) :=
  replicate n (zeros2 zero m p).

(** Normalisation of one integer index against an axis of length [len]:
    an index in [0, len) is itself, one in [-len, 0) counts from the end,
    anything else is an [IndexError]. *)
Definition norm_index (len : nat) (k : Z) : result nat :=
  if decide (0 ≤ k < Z.of_nat len)%Z then Ok (Z.to_nat k)
  else if decide (- Z.of_nat len ≤ k < 0)%Z then Ok (Z.to_nat (k + Z.of_nat len))
  else Raise IndexError.

(** One write [a[i, j] = v] and [a[i, j, k] = v] at normalised indices. *)
Definition write2 {A} (i j : nat) (v : A) (a : list (list A)) : list (list A) :=
  alter (λ row, <[j := v]> row) i a.
Definition write3 {A} (i j k : nat) (v : A) (a : list (list (list A)))
  : list (list (list A)) :=
  alter (write2 j k v) i a.

(** Assignment through integer index arrays, [a[I, J] = V], on an array
    of shape [n, m].  The index arrays and the values are taken flattened
    in row-major order; the writes happen in that order, so that where a
    position is written more than once the last write stays. *)
Fixpoint setitem2 {A} (n m : nat) (a : list (list A))
    (idx : list (Z * Z * A)) : result (list (list A)) :=
  match idx with
  | [] => Ok a
  | (i, j, v) :: rest =>
      i' ← norm_index n i;
      j' ← norm_index m j;
      setitem2 n m (write2 i' j' v a) rest
  end.

(** The same for [a[I, J, K] = V] on an array of shape [n, m, p]. *)
Fixpoint setitem3 {A} (n m p : nat) (a : list (list (list A)))
    (idx : list (Z * Z * Z * A)) : result (list (list (list A))) :=
  match idx with
  | [] => Ok a
  | (i, j, k, v) :: rest =>
      i' ← norm_index n i;
      j' ← norm_index m j;
      k' ← norm_index p k;
      setitem3 n m p (write3 i' j' k' v a) rest
  end.

(** [np.meshgrid(np.arange(n), np.arange(n), indexing='ij')]: two arrays
    of shape [n, n] with [g[a, b] = a] and [h[a, b] = b]. *)
Definition meshgrid_ij (n : nat) : list (list Z) * list (list Z) :=
  ((λ a, replicate n a) <$> arange n, replicate n (arange n)).

(** The matrix product of two d×d matrices, as [np.einsum] forms it for
    one pair of operands: entry (i, k) is the sum over j of
    [a[i, j] * b[j, k]], accumulated for j = 0, ..., d-1 from 0.  The
    statements below use the product only through [matmul], on both sides:
    none depends on the order of accumulation. *)
Definition dot_ik (d : nat) (a b : list (list float)) (i k : nat) : float :=
  foldl (λ acc j, acc + ((a !!! i) !!! j) * ((b !!! j) !!! k))%float 0%float (seq 0 d).
Definition matmul (d : nat) (a b : list (list float)) : list (list float) :=
  (λ i, (λ k, dot_ik d a b i k) <$> seq 0 d) <$> seq 0 d.

(** [np.einsum('nij,mjk->nmik', A, B)] on stacks of d×d matrices: the
    grid of all pairwise products, [out[n, m] = A[n] @ B[m]]. *)
Definition einsum_nij_mjk_nmik (d : nat) (A B : list (list (list float)))
  : list (list (list (list float))) :=
  (λ a, (λ b, matmul d a b) <$> B) <$> A.

(** Elementwise difference of two matrices of the same shape. *)
Definition sub2 (p q : list (list float)) : list (list float) :=
  zip_with (zip_with PrimFloat.sub) p q.

End np.

(** ** identity *)

Definition identity (table : list (list Z)) : result nat :=
  let n := length table in
  let i := np.nonzero
             (np.all <$> ((λ row, zip_with Z.eqb row (np.arange n)) <$> table)) in
  if decide (length i ≠ 1) then Raise (ValueError "No or multiple identities")
  else match i with
       | i0 :: _ => Ok i0
       | [] => Raise IndexError
       end.

(** ** inverses *)

Definition inverses (table : list (list Z)) : result (list nat) :=
  let n := length table in
  e ← identity table;
  let ij := np.nonzero2
              ((λ row : list Z, (λ x, Z.eqb x (Z.of_nat e)) <$> row) <$> table) in
  let i := ij.*1 in
  let j := ij.*2 in
  if bool_decide (length i ≠ n)
     || negb (np.all (zip_with Z.eqb (Z.of_nat <$> i) (np.arange n)))
  then Raise (ValueError "Every element does not have one inverse")
  else Ok j.


(** ** make_multiplication_table *)

(** The argument [matrices]: a float64 array of three axes with its shape. *)
Record ndarray3 : Type := {
  shape : nat * nat * nat;
  data : list (list (list float))
}.

(** Conversion to [np.int32], as an assignment into an int32 array does it:
    the value is reduced modulo 2^32 into [-2^31, 2^31). *)
Definition int32 (z : Z) : Z := ((z + 2 ^ 31) `mod` 2 ^ 32 - 2 ^ 31)%Z.

(** The default of the keyword argument [tol]. *)
Definition default_tol : float := 1e-8%float.

Definition make_multiplication_table (matrices : ndarray3) (tol_kw : option float)
  : result (list (list Z)) :=
  let tol := default default_tol tol_kw in
  let '(n, d, d2) := shape matrices in
  if negb (d =? d2) then Raise AssertionError
  else
    let M := data matrices in
    let mtables := np.einsum_nij_mjk_nmik d M M in
    (* result[k, i, j] = mtables[i, j] - matrices[k] *)
    let result :=
      (λ Mk, (λ row : list (list (list float)), (λ P, np.sub2 P Mk) <$> row) <$> mtables)
        <$> M in
    let close :=
      (λ plane : list (list (list (list float))),
         (λ row : list (list (list float)),
            (λ Δ : list (list float),
               np.all (np.all <$>
                 ((λ r : list float, (λ x, PrimFloat.ltb (PrimFloat.abs x) tol) <$> r)
                    <$> Δ))) <$> row) <$> plane) <$> result in
    let indices := np.nonzero3 close in
    let table := np.zeros2 0%Z n n in
    (* table[indices[1], indices[2]] = indices[0] *)
    np.setitem2 n n table
      ((λ kij : nat * nat * nat,
          (Z.of_nat kij.1.2, Z.of_nat kij.2, int32 (Z.of_nat kij.1.1))) <$> indices).

(** ** regular_representation *)

Definition regular_representation (table : list (list Z))
  : result (list (list (list float))) :=
  let n := length table in
  let '(g, h) := np.meshgrid_ij n in
  let gh := table in
  let reg_rep := np.zeros3 0%float n n n in
  (* reg_rep[g, gh, h] = 1 *)
  np.setitem3 n n n reg_rep
    (zip_with (λ a bc, (a, bc.1, bc.2, 1%float)) (mjoin g) (zip (mjoin gh) (mjoin h))).

(** ** Vocabulary of the specification *)

(** An n×n table: n rows of n entries. *)
Definition square (n : nat) (t : list (list Z)) : Prop :=
  length t = n ∧ Forall (λ row, length row = n) t.

(** [table[i, j]]. *)
Definition entry (t : list (list Z)) (i j : nat) : Z := (t !!! i) !!! j.

(** Column [j] of a table, read top to bottom. *)
Definition column (t : list (list Z)) (j : nat) : list Z := (λ row, row !!! j) <$> t.

(** Row [i] is the canonical index sequence [0, 1, ..., n-1]. *)
Definition identity_row (n : nat) (t : list (list Z)) (i : nat) : Prop :=
  t !! i = Some (np.arange n).

(** A valid group table, as far as the functions rely on it: every row and
    every column is a permutation of 0, ..., n-1 and exactly one row is
    the canonical index sequence.  The table of any finite group satisfies
    this. *)
Record valid_group_table (n : nat) (t : list (list Z)) : Prop := {
  vg_square : square n t;
  vg_rows : ∀ i, i < n → t !!! i ≡ₚ np.arange n;
  vg_columns : ∀ j, j < n → column t j ≡ₚ np.arange n;
  vg_identity : ∃ e, identity_row n t e ∧ ∀ e', identity_row n t e' → e' = e
}.

(** The (row, column) positions whose entry is [e], scanned row by row. *)
Definition cells_equal_to (n : nat) (t : list (list Z)) (e : Z) : list (nat * nat) :=
  filter (λ ij, entry t ij.1 ij.2 = e)
         (mjoin ((λ i, pair i <$> seq 0 n) <$> seq 0 n)).

(** The table of the cyclic group of order n: [table[i, j] = (i + j) mod n]. *)
Definition cyclic_table (n : nat) : list (list Z) :=
  (λ i, (λ j, Z.of_nat ((i + j) `mod` n)) <$> seq 0 n) <$> seq 0 n.

(** A stack of n matrices of d rows and d2 columns, as its shape says. *)
Definition wf_ndarray3 (a : ndarray3) : Prop :=
  let '(n, d, d2) := shape a in
  length (data a) = n
  ∧ Forall (λ m : list (list float),
              length m = d ∧ Forall (λ r : list float, length r = d2) m) (data a).

(** Two d×d matrices match within [tol]: each of the d×d entries of the
    elementwise absolute difference is strictly below [tol]. *)
Definition close_to (d : nat) (tol : float) (p q : list (list float)) : Prop :=
  ∀ a b, a < d → b < d →
    PrimFloat.ltb (PrimFloat.abs (PrimFloat.sub ((p !!! a) !!! b) ((q !!! a) !!! b))) tol
    = true.

(** [matrices[i] @ matrices[j]] matches [matrices[k]] within [tol]. *)
Definition product_matches (d : nat) (tol : float) (M : list (list (list float)))
    (i j k : nat) : Prop :=
  close_to d tol (np.matmul d (M !!! i) (M !!! j)) (M !!! k).

(** An array of shape [n, m, p]. *)
Definition shape3 {A} (n m p : nat) (a : list (list (list A))) : Prop :=
  length a = n
  ∧ Forall (λ plane : list (list A),
              length plane = m ∧ Forall (λ r : list A, length r = p) plane) a.

(** An array of shape [n, m]. *)
Definition shape2 {A} (n m : nat) (a : list (list A)) : Prop :=
  length a = n ∧ Forall (λ r : list A, length r = m) a.

(** The value a sequence of writes [(position, value)] leaves at [pos],
    over a previous content [d]: that of the last write to [pos]. *)
Definition last_written {P A} `{EqDecision P} (pos : P) (ws : list (P * A)) (d : A) : A :=
  foldl (λ acc w, if decide (w.1 = pos) then w.2 else acc) d ws.

(** The cells [(i, j)] and [(k, i, j)] of boolean arrays of two and three
    axes, where they exist. *)
Definition lookup2 (b : list (list bool)) (i j : nat) : option bool :=
  match b !! i with
  | Some row => row !! j
  | None => None
  end.
Definition lookup3 (c : list (list (list bool))) (k i j : nat) : option bool :=
  match c !! k with
  | Some plane => lookup2 plane i j
  | None => None
  end.

(** The writes of [table[indices[1], indices[2]] = indices[0]] for the
    matches [c]: position [(i, j)] receives [k], converted to int32, for
    every cell [(k, i, j)] of [c] that holds [True], in scan order. *)
Definition table_writes (c : list (list (list bool))) : list (nat * nat * Z) :=
  (λ kij : nat * nat * nat, (kij.1.2, kij.2, int32 (Z.of_nat kij.1.1))) <$> np.nonzero3 c.

(** The writes of [reg_rep[g, gh, h] = 1], for a table with entries in
    range: position [(a, table[a, b], b)] for every (a, b) of the grid, row
    by row. *)
Definition regular_writes (n : nat) (t : list (list Z)) : list (nat * nat * nat * float) :=
  mjoin ((λ a, (λ b, (a, Z.to_nat (entry t a b), b, 1%float)) <$> seq 0 n) <$> seq 0 n).

(** The boolean array [np.all(np.all(np.abs(result) < tol, -1), -1)] of
    [make_multiplication_table]: cell [(k, i, j)] tells whether
    [matrices[i] @ matrices[j] - matrices[k]] is below [tol] in every entry. *)
Definition match_mask (d : nat) (tol : float) (M : list (list (list float)))
  : list (list (list bool)) :=
  let mtables := np.einsum_nij_mjk_nmik d M M in
  let result :=
    (λ Mk, (λ row : list (list (list float)), (λ P, np.sub2 P Mk) <$> row) <$> mtables)
      <$> M in
  (λ plane : list (list (list (list float))),
     (λ row : list (list (list float)),
        (λ Δ : list (list float),
           np.all (np.all <$>
             ((λ r : list float, (λ x, PrimFloat.ltb (PrimFloat.abs x) tol) <$> r)
                <$> Δ))) <$> row) <$> plane) <$> result.

(** The operation of the table is associative: (a·b)·c = a·(b·c). *)
Definition associative (n : nat) (t : list (list Z)) : Prop :=
  ∀ a b c, a < n → b < n → c < n →
    entry t (Z.to_nat (entry t a b)) c = entry t a (Z.to_nat (entry t b c)).

(** The index an in-range integer denotes on an axis of length [len]. *)
Definition wrap_index (len : nat) (z : Z) : nat := Z.to_nat (z `mod` Z.of_nat len).

(** The index arrays of [reg_rep[g, gh, h] = 1], flattened and zipped:
    [(a, table[a, b], b)] with the value 1, for the grid positions row by
    row. *)
Definition regular_index (n : nat) (t : list (list Z)) : list (Z * Z * Z * float) :=
  mjoin ((λ a, (λ b, (Z.of_nat a, entry t a b, Z.of_nat b, 1%float)) <$> seq 0 n)
           <$> seq 0 n).

(** ** Concrete inputs *)

(** The table of the cyclic group of order 3. *)
Definition c3_table : list (list Z) := [[0;1;2];[1;2;0];[2;0;1]]%Z.

(** The rotations by 0°, 90°, 180° and 270° as 2×2 matrices. *)
Definition rot4 : ndarray3 :=
  {| shape := (4, 2, 2);
     data := [ [[1;0];[0;1]]; [[0;-1];[1;0]]; [[-1;0];[0;-1]]; [[0;1];[-1;0]] ]%float |}.

(** The group {1, -1} as 1×1 matrices. *)
Definition sign_group : ndarray3 :=
  {| shape := (2, 1, 1); data := [ [[1]]; [[-1]] ]%float |}.

(** A set that is not closed: 2 · 2 = 4 is not in it. *)
Definition two_alone : ndarray3 :=
  {| shape := (1, 1, 1); data := [ [[2]] ]%float |}.

(** Two matrices that differ by less than the default tolerance. *)
Definition near_duplicates : ndarray3 :=
  {| shape := (2, 1, 1); data := [ [[1]]; [[1.000000001]] ]%float |}.

(** One matrix of one row and two columns. *)
Definition wide_matrix : ndarray3 :=
  {| shape := (1, 1, 2); data := [ [[1; 2]] ]%float |}.

(** ** Examples: the functions evaluated *)

Example identity_c3 : identity c3_table = Ok 0.
Proof. reflexivity. Qed.

Example inverses_c3 : inverses c3_table = Ok [0;2;1].
Proof. reflexivity. Qed.

Example identity_trivial : identity [[0%Z]] = Ok 0.
Proof. reflexivity. Qed.

Example inverses_trivial : inverses [[0%Z]] = Ok [0].
Proof. reflexivity. Qed.

Example regular_representation_trivial :
  regular_representation [[0%Z]] = Ok [[[1%float]]].
Proof. reflexivity. Qed.

(** The rotations by 0°, 90°, 180° and 270° give the table of addition
    modulo 4. *)

Example make_multiplication_table_rot4 :
  make_multiplication_table rot4 None = Ok (cyclic_table 4).
Proof. vm_compute. reflexivity. Qed.

(** For the cyclic group of order 3, D[0] is the identity matrix and D[1]
    sends e_0 to e_1, e_1 to e_2 and e_2 to e_0. *)
Example regular_representation_c3 :
  regular_representation c3_table
  = Ok [ [[1;0;0];[0;1;0];[0;0;1]];
         [[0;0;1];[1;0;0];[0;1;0]];
         [[0;1;0];[0;0;1];[1;0;0]] ]%float.
Proof. vm_compute. reflexivity. Qed.

(** ** Facts about the NumPy primitives *)

Lemma NoDup_singleton_eq {A} (l : list A) (x : A) :
  NoDup l → (∀ y, y ∈ l ↔ y = x) → l = [x].
Proof.
  intros Hnd Hin. destruct l as [|a [|b l']].
  - exfalso. assert (x ∈ @nil A) as H by (apply Hin; done). inversion H.
  - f_equal. apply Hin. left.
  - exfalso.
    assert (a = x) as -> by (apply Hin; left).
    assert (b = x) as -> by (apply Hin; right; left).
    apply NoDup_cons in Hnd as [Hnot _]. apply Hnot. left.
Qed.

Lemma elem_of_nonzero (b : list bool) (i : nat) :
  i ∈ np.nonzero b ↔ b !! i = Some true.
Proof.
  unfold np.nonzero. rewrite list_elem_of_filter, elem_of_seq.
  split; [tauto|]. intros H. split; [done|].
  apply lookup_lt_Some in H. lia.
Qed.

Lemma NoDup_nonzero (b : list bool) : NoDup (np.nonzero b).
Proof. apply NoDup_filter, NoDup_seq. Qed.

Lemma nonzero_unique (b : list bool) (x : nat) :
  b !! x = Some true → (∀ y, b !! y = Some true → y = x) → np.nonzero b = [x].
Proof.
  intros Hx Hu. apply NoDup_singleton_eq; [apply NoDup_nonzero|].
  intros y. rewrite elem_of_nonzero. split; [auto|]. by intros ->.
Qed.

Lemma all_eqb_eq (r s : list Z) :
  length r = length s → np.all (zip_with Z.eqb r s) = true ↔ r = s.
Proof.
  unfold np.all. revert s.
  induction r as [|x r IH]; intros [|y s] Hlen; simpl in *; try done.
  unfold id at 1. rewrite andb_true_iff, Z.eqb_eq, IH by lia.
  split; [intros [-> ->]; done | intros [= -> ->]; done].
Qed.

Lemma length_arange (n : nat) : length (np.arange n) = n.
Proof. unfold np.arange. rewrite length_seqZ. lia. Qed.

Lemma lookup_arange (n i : nat) : i < n → np.arange n !! i = Some (Z.of_nat i).
Proof. intros H. unfold np.arange. by rewrite lookup_seqZ_lt by lia. Qed.

Lemma elem_of_arange (n : nat) (z : Z) : z ∈ np.arange n ↔ (0 ≤ z < Z.of_nat n)%Z.
Proof. unfold np.arange. rewrite elem_of_seqZ. lia. Qed.

Lemma NoDup_arange (n : nat) : NoDup (np.arange n).
Proof. apply NoDup_seqZ. Qed.

(** ** identity: the rows it selects *)

Lemma identity_mask_lookup (n : nat) (t : list (list Z)) (i : nat) :
  square n t →
  (np.all <$> ((λ row, zip_with Z.eqb row (np.arange n)) <$> t)) !! i = Some true
  ↔ identity_row n t i.
Proof.
  intros [Hlen Hrows]. unfold identity_row.
  rewrite !list_lookup_fmap. destruct (t !! i) as [row|] eqn:E; simpl; [|done].
  assert (length row = n) as Hrow by (eapply (proj1 (Forall_lookup _ _) Hrows); eauto).
  split.
  - intros [= H]. f_equal. apply all_eqb_eq; [by rewrite length_arange|done].
  - intros [= ->]. f_equal. apply all_eqb_eq; [by rewrite length_arange|done].
Qed.

Lemma identity_Ok (n : nat) (t : list (list Z)) (i : nat) :
  square n t →
  identity t = Ok i ↔ identity_row n t i ∧ ∀ i', identity_row n t i' → i' = i.
Proof.
  intros Hsq. pose proof Hsq as [Hlen _]. unfold identity. rewrite Hlen.
  set (mask := np.all <$> _).
  pose proof (NoDup_nonzero mask) as Hnd.
  assert (∀ k, k ∈ np.nonzero mask ↔ identity_row n t k) as Hin.
  { intros k. rewrite elem_of_nonzero. by apply identity_mask_lookup. }
  destruct (np.nonzero mask) as [|x [|y l]] eqn:E; simpl.
  - split; [done|]. intros [H _]. apply Hin in H. inversion H.
  - split.
    + intros [= ->]. split; [apply Hin; left|].
      intros i' H. apply Hin in H. by apply list_elem_of_singleton in H.
    + intros [H _]. apply Hin in H. apply list_elem_of_singleton in H. by subst.
  - split; [done|]. intros [_ Hu]. exfalso.
    assert (x = i) as -> by (apply Hu, Hin; left).
    assert (y = i) as -> by (apply Hu, Hin; right; left).
    apply NoDup_cons in Hnd as [Hnot _]. apply Hnot. left.
Qed.

Lemma identity_cases (t : list (list Z)) :
  (∃ i, identity t = Ok i)
  ∨ identity t = Raise (ValueError "No or multiple identities").
Proof.
  unfold identity. set (l := np.nonzero _).
  destruct l as [|x [|y l']]; simpl; eauto.
Qed.

(** ** inverses: the scan for the identity *)

Lemma filter_ext_in {A} (P1 P2 : A → Prop)
    `{!∀ x, Decision (P1 x), !∀ x, Decision (P2 x)} (l : list A) :
  (∀ x, x ∈ l → P1 x ↔ P2 x) → filter P1 l = filter P2 l.
Proof.
  induction l as [|a l IH]; intros Hl; [done|].
  assert (filter P1 l = filter P2 l) as IH' by (apply IH; intros; apply Hl; by right).
  assert (P1 a ↔ P2 a) as Ha by (apply Hl; left).
  destruct (decide (P1 a)).
  - rewrite !filter_cons_True by tauto. by rewrite IH'.
  - rewrite !filter_cons_False by tauto. done.
Qed.

Lemma filter_join {A} (P : A → Prop) `{!∀ x, Decision (P x)} (ls : list (list A)) :
  filter P (mjoin ls) = mjoin (filter P <$> ls).
Proof.
  induction ls as [|l ls IH]; [done|]. simpl. by rewrite filter_app, IH.
Qed.

Lemma filter_fmap {A B} (f : A → B) (P : B → Prop) `{!∀ x, Decision (P x)}
    (l : list A) :
  filter P (f <$> l) = f <$> filter (λ x, P (f x)) l.
Proof.
  induction l as [|a l IH]; [done|]. rewrite fmap_cons.
  destruct (decide (P (f a))).
  - rewrite !filter_cons_True by done. by rewrite fmap_cons, IH.
  - rewrite !filter_cons_False by done. done.
Qed.

Lemma join_fmap_singletons {A B} (g : A → list B) (h : A → B) (l : list A) :
  (∀ x, x ∈ l → g x = [h x]) → mjoin (g <$> l) = h <$> l.
Proof.
  induction l as [|a l IH]; intros Hl; [done|]. simpl.
  rewrite (Hl a) by left. simpl. f_equal. apply IH. intros; apply Hl; by right.
Qed.

Lemma nonzero_eqb_row (n : nat) (row : list Z) (e : Z) :
  length row = n →
  np.nonzero ((λ x, Z.eqb x e) <$> row) = filter (λ j, row !!! j = e) (seq 0 n).
Proof.
  intros Hlen. unfold np.nonzero. rewrite length_fmap, Hlen.
  apply filter_ext_in. intros j Hj. apply elem_of_seq in Hj.
  rewrite list_lookup_fmap.
  destruct (lookup_lt_is_Some_2 row j) as [x Hx]; [lia|].
  rewrite (list_lookup_total_correct _ _ _ Hx), Hx. simpl.
  split; [intros [= H%Z.eqb_eq]; done | intros ->; by rewrite Z.eqb_refl].
Qed.

Lemma nonzero2_cells (n : nat) (t : list (list Z)) (e : Z) :
  square n t →
  np.nonzero2 ((λ row : list Z, (λ x, Z.eqb x e) <$> row) <$> t)
  = cells_equal_to n t e.
Proof.
  intros [Hlen Hrows]. unfold np.nonzero2, cells_equal_to.
  rewrite filter_join. f_equal. apply list_eq. intros i.
  rewrite imap_fmap, list_lookup_imap, !list_lookup_fmap.
  destruct (decide (i < n)) as [Hi|Hi].
  - rewrite lookup_seq_lt by done.
    destruct (lookup_lt_is_Some_2 t i) as [row Hrow]; [lia|].
    rewrite Hrow. simpl. f_equal.
    assert (length row = n) as Hr by (eapply (proj1 (Forall_lookup _ _) Hrows); eauto).
    rewrite (nonzero_eqb_row n) by done. rewrite filter_fmap. f_equal.
    apply filter_ext_in. intros j _. unfold entry. simpl.
    by rewrite (list_lookup_total_correct _ _ _ Hrow).
  - rewrite lookup_seq_ge by lia. rewrite lookup_ge_None_2 by lia. done.
Qed.

Lemma cells_of_unique (n : nat) (t : list (list Z)) (e : Z) (f : nat → nat) :
  (∀ i, i < n → f i < n ∧ ∀ j, j < n → entry t i j = e ↔ j = f i) →
  cells_equal_to n t e = (λ i, (i, f i)) <$> seq 0 n.
Proof.
  intros Hf. unfold cells_equal_to. rewrite filter_join, <- list_fmap_compose.
  apply join_fmap_singletons. intros i Hi. apply elem_of_seq in Hi. simpl.
  destruct (Hf i) as [Hfi Hu]; [lia|].
  rewrite filter_fmap. simpl.
  rewrite (NoDup_singleton_eq (filter _ _) (f i)); [done| |].
  - apply NoDup_filter, NoDup_seq.
  - intros j. rewrite list_elem_of_filter, elem_of_seq. split.
    + intros [He Hj]. apply Hu; [lia|done].
    + intros ->. split; [apply Hu; [lia|done] | lia].
Qed.

Lemma all_eqb_of_nat_seq (n : nat) :
  np.all (zip_with Z.eqb (Z.of_nat <$> seq 0 n) (np.arange n)) = true.
Proof.
  apply all_eqb_eq.
  - by rewrite length_fmap, length_seq, length_arange.
  - apply list_eq. intros i. rewrite list_lookup_fmap.
    destruct (decide (i < n)).
    + by rewrite lookup_seq_lt, lookup_arange by done.
    + rewrite lookup_seq_ge by lia. unfold np.arange.
      rewrite lookup_seqZ_ge by lia. done.
Qed.

(** The check of [inverses] on the row indices of the scan: the count is n
    and the rows read 0, 1, ..., n-1, which is to say the row indices are
    exactly [seq 0 n]. *)
Lemma inverses_check (n : nat) (rows : list nat) :
  bool_decide (length rows ≠ n)
  || negb (np.all (zip_with Z.eqb (Z.of_nat <$> rows) (np.arange n))) = false
  ↔ rows = seq 0 n.
Proof.
  rewrite orb_false_iff, bool_decide_eq_false, negb_false_iff. split.
  - intros [Hlen Hall].
    assert (length rows = n) as Hl by (destruct (decide (length rows = n)); tauto).
    apply all_eqb_eq in Hall; [|by rewrite length_fmap, length_arange].
    apply (inj (fmap Z.of_nat)). rewrite Hall. symmetry.
    apply all_eqb_eq; [|apply all_eqb_of_nat_seq].
    by rewrite length_fmap, length_seq, length_arange.
  - intros ->. split; [|apply all_eqb_of_nat_seq].
    rewrite length_seq. tauto.
Qed.

Lemma inverses_unfold (n : nat) (t : list (list Z)) (e : nat) :
  square n t → identity t = Ok e →
  inverses t =
    if decide ((cells_equal_to n t (Z.of_nat e)).*1 = seq 0 n)
    then Ok (cells_equal_to n t (Z.of_nat e)).*2
    else Raise (ValueError "Every element does not have one inverse").
Proof.
  intros Hsq He. unfold inverses. rewrite He. simpl.
  rewrite (nonzero2_cells n) by done. rewrite (proj1 Hsq).
  pose proof (inverses_check n (cells_equal_to n t (Z.of_nat e)).*1) as Hc.
  destruct (bool_decide _ || _) eqn:E.
  - rewrite decide_False; [done|]. intros H. apply Hc in H. congruence.
  - rewrite decide_True; [done|]. by apply Hc.
Qed.

Lemma inverses_of_unique (n : nat) (t : list (list Z)) (e : nat) (f : nat → nat) :
  square n t → identity t = Ok e →
  (∀ i, i < n → f i < n ∧ ∀ j, j < n → entry t i j = Z.of_nat e ↔ j = f i) →
  inverses t = Ok (f <$> seq 0 n).
Proof.
  intros Hsq He Hf. rewrite (inverses_unfold n t e) by done.
  rewrite (cells_of_unique n t _ f) by done.
  rewrite <- !list_fmap_compose. simpl.
  rewrite decide_True; [done|]. apply list_fmap_id.
Qed.

(** ** Valid group tables *)

Lemma nat_choice (n : nat) (P : nat → nat → Prop) :
  (∀ i, i < n → ∃ j, P i j) → ∃ f, ∀ i, i < n → P i (f i).
Proof.
  induction n as [|n IH]; intros H.
  - exists (λ _, 0). intros i Hi. lia.
  - destruct IH as [f Hf]; [intros i Hi; apply H; lia|].
    destruct (H n) as [j Hj]; [lia|].
    exists (λ i, if decide (i = n) then j else f i). intros i Hi.
    destruct (decide (i = n)) as [->|Hne]; [done|]. apply Hf. lia.
Qed.

(** In a permutation of 0, ..., n-1 every index below n sits at exactly one
    position. *)
Lemma perm_arange_position (n : nat) (row : list Z) (z : Z) :
  row ≡ₚ np.arange n → (0 ≤ z < Z.of_nat n)%Z →
  ∃ j, j < n ∧ row !! j = Some z ∧ ∀ j', row !! j' = Some z → j' = j.
Proof.
  intros Hperm Hz.
  assert (length row = n) as Hlen
    by (rewrite (Permutation_length Hperm); apply length_arange).
  assert (NoDup row) as Hnd by (rewrite Hperm; apply NoDup_arange).
  assert (z ∈ row) as Hin by (rewrite Hperm; by apply elem_of_arange).
  apply list_elem_of_lookup in Hin as [j Hj]. exists j. split_and!.
  - apply lookup_lt_Some in Hj. lia.
  - done.
  - intros j' Hj'. eapply NoDup_lookup; eauto.
Qed.

Lemma entry_lookup (t : list (list Z)) (i j : nat) (row : list Z) (z : Z) :
  t !! i = Some row → row !! j = Some z → entry t i j = z.
Proof.
  intros Hi Hj. unfold entry.
  by rewrite (list_lookup_total_correct _ _ _ Hi), (list_lookup_total_correct _ _ _ Hj).
Qed.

Lemma square_lookup (n : nat) (t : list (list Z)) (i j : nat) :
  square n t → i < n → j < n →
  ∃ row, t !! i = Some row ∧ length row = n ∧ row !! j = Some (entry t i j).
Proof.
  intros [Hlen Hrows] Hi Hj.
  destruct (lookup_lt_is_Some_2 t i) as [row Hrow]; [lia|].
  assert (length row = n) as Hr by (eapply (proj1 (Forall_lookup _ _) Hrows); eauto).
  destruct (lookup_lt_is_Some_2 row j) as [z Hz]; [lia|].
  exists row. split_and!; [done..|]. by rewrite (entry_lookup _ _ _ _ _ Hrow Hz).
Qed.

Lemma column_lookup (n : nat) (t : list (list Z)) (i j : nat) :
  square n t → i < n → column t j !! i = Some (entry t i j).
Proof.
  intros [Hlen _] Hi. unfold column. rewrite list_lookup_fmap.
  destruct (lookup_lt_is_Some_2 t i) as [row Hrow]; [lia|].
  rewrite Hrow. simpl. unfold entry.
  by rewrite (list_lookup_total_correct _ _ _ Hrow).
Qed.

Lemma valid_identity (n : nat) (t : list (list Z)) :
  valid_group_table n t → ∃ e, identity t = Ok e ∧ e < n.
Proof.
  intros [Hsq _ _ (e & He & Hu)]. exists e. split.
  - by apply (identity_Ok n).
  - unfold identity_row in He. apply lookup_lt_Some in He. by rewrite (proj1 Hsq) in He.
Qed.

(** In a valid table the identity occurs exactly once in every row; the
    column where it occurs is the inverse, and [inverses] returns these
    columns in row order. *)
Lemma valid_inverse_map (n : nat) (t : list (list Z)) :
  valid_group_table n t →
  ∃ e f, identity t = Ok e ∧ e < n
    ∧ (∀ i, i < n → f i < n ∧ ∀ j, j < n → entry t i j = Z.of_nat e ↔ j = f i)
    ∧ inverses t = Ok (f <$> seq 0 n).
Proof.
  intros Hv. destruct (valid_identity n t Hv) as (e & He & Hlt).
  pose proof (vg_square _ _ Hv) as Hsq.
  destruct (nat_choice n
    (λ i j, j < n ∧ ∀ j', j' < n → entry t i j' = Z.of_nat e ↔ j' = j)) as [f Hf].
  { intros i Hi.
    destruct (perm_arange_position n (t !!! i) (Z.of_nat e)) as (j & Hj & Hlk & Hu).
    { by apply (vg_rows _ _ Hv). }
    { lia. }
    exists j. split; [done|]. intros j' Hj'.
    destruct (square_lookup n t i j' Hsq Hi Hj') as (row & Hrow & _ & Hz).
    rewrite (list_lookup_total_correct _ _ _ Hrow) in Hlk, Hu.
    split.
    - intros Heq. apply Hu. by rewrite Hz, Heq.
    - intros ->. by apply (entry_lookup _ _ _ _ _ Hrow Hlk). }
  exists e, f. split_and!; [done..|]. by apply (inverses_of_unique n t e f).
Qed.

(** ** The cyclic group *)

Lemma mod_add_lt (n x : nat) :
  0 < n → x < 2 * n → x `mod` n = if decide (x < n) then x else x - n.
Proof.
  intros Hn Hx. destruct (decide (x < n)).
  - by apply Nat.mod_small.
  - replace x with ((x - n) + 1 * n) at 1 by lia.
    rewrite Nat.Div0.mod_add. apply Nat.mod_small. lia.
Qed.

Lemma cyclic_table_square (n : nat) : square n (cyclic_table n).
Proof.
  unfold square, cyclic_table. split.
  - by rewrite length_fmap, length_seq.
  - apply Forall_fmap, Forall_forall. intros i _. simpl.
    by rewrite length_fmap, length_seq.
Qed.

Lemma cyclic_table_entry (n i j : nat) :
  i < n → j < n → entry (cyclic_table n) i j = Z.of_nat ((i + j) `mod` n).
Proof.
  intros Hi Hj. apply (entry_lookup _ _ _ ((λ j, Z.of_nat ((i + j) `mod` n)) <$> seq 0 n)).
  - unfold cyclic_table. rewrite list_lookup_fmap, lookup_seq_lt by done. done.
  - rewrite list_lookup_fmap, lookup_seq_lt by done. done.
Qed.

Lemma cyclic_table_identity (n : nat) : 0 < n → identity (cyclic_table n) = Ok 0.
Proof.
  intros Hn. apply (identity_Ok n); [apply cyclic_table_square|].
  assert (∀ i, i < n →
    cyclic_table n !! i = Some ((λ j, Z.of_nat ((i + j) `mod` n)) <$> seq 0 n)) as Hrow.
  { intros i Hi. unfold cyclic_table. by rewrite list_lookup_fmap, lookup_seq_lt. }
  unfold identity_row. split.
  - rewrite Hrow by done. f_equal. apply list_eq. intros j.
    rewrite list_lookup_fmap. destruct (decide (j < n)).
    + rewrite lookup_seq_lt, lookup_arange by done. simpl.
      by rewrite Nat.mod_small by lia.
    + rewrite lookup_seq_ge by lia. unfold np.arange.
      by rewrite lookup_seqZ_ge by lia.
  - intros i Hi.
    assert (i < n) as Hlt.
    { apply lookup_lt_Some in Hi. by rewrite (proj1 (cyclic_table_square n)) in Hi. }
    rewrite Hrow in Hi by done. injection Hi as Hi.
    apply (f_equal (λ l, l !! 0)) in Hi.
    rewrite list_lookup_fmap, lookup_seq_lt, lookup_arange in Hi by done.
    simpl in Hi. injection Hi as Hi.
    rewrite Nat.add_0_r, Nat.mod_small in Hi by done. lia.
Qed.

Lemma cyclic_table_inverse (n i j : nat) :
  i < n → j < n → (i + j) `mod` n = 0 ↔ j = (n - i) `mod` n.
Proof.
  intros Hi Hj.
  rewrite (mod_add_lt n (i + j)), (mod_add_lt n (n - i)) by lia.
  repeat case_decide; lia.
Qed.

(** ** Assignment through index arrays *)

Lemma norm_index_of_nat (len i : nat) :
  i < len → np.norm_index len (Z.of_nat i) = Ok i.
Proof.
  intros Hi. unfold np.norm_index. rewrite decide_True by lia.
  by rewrite Nat2Z.id.
Qed.

Section last_written.
Context {P A : Type} `{EqDecision P}.
Implicit Types (pos : P) (ws : list (P * A)) (d v : A).

Lemma last_written_cons pos w ws d :
  last_written pos (w :: ws) d
  = last_written pos ws (if decide (w.1 = pos) then w.2 else d).
Proof. done. Qed.

Lemma last_written_app pos ws1 ws2 d :
  last_written pos (ws1 ++ ws2) d = last_written pos ws2 (last_written pos ws1 d).
Proof. unfold last_written. by rewrite foldl_app. Qed.

(** Writes that all carry the same value: the position holds that value
    if it was written at all, and its previous content otherwise. *)
Lemma last_written_const pos ws d v :
  (∀ w, w ∈ ws → w.2 = v) →
  last_written pos ws d = if decide (pos ∈ ws.*1) then v else d.
Proof.
  revert d. induction ws as [|w ws IH]; intros d Hv.
  - rewrite decide_False; [done|]. simpl. apply not_elem_of_nil.
  - rewrite last_written_cons, IH by (intros; apply Hv; by right).
    rewrite fmap_cons, (Hv w) by left.
    destruct (decide (w.1 = pos)) as [Heq|Hne].
    + rewrite (decide_True (P := pos ∈ w.1 :: ws.*1)) by (rewrite Heq; left).
      by case_decide.
    + destruct (decide (pos ∈ ws.*1)) as [Hin|Hnin].
      * rewrite decide_True; [done|]. by right.
      * rewrite decide_False; [done|].
        intros [?|?]%elem_of_cons; [by apply Hne|by apply Hnin].
Qed.
End last_written.

Section setitem2.
Context {A : Type} `{!Inhabited A}.
Implicit Types (a : list (list A)) (ws : list (nat * nat * A)).

Lemma write2_shape n m a i j (v : A) :
  shape2 n m a → shape2 n m (np.write2 i j v a).
Proof.
  intros [Hlen Hrows]. unfold np.write2. split.
  - by rewrite length_alter.
  - apply Forall_alter; [done|]. intros row _ Hr. by rewrite length_insert.
Qed.

Lemma shape2_row_length n m a i : shape2 n m a → i < n → length (a !!! i) = m.
Proof.
  intros [Hlen Hrows] Hi.
  destruct (lookup_lt_is_Some_2 a i) as [row Hrow]; [lia|].
  rewrite (list_lookup_total_correct _ _ _ Hrow).
  eapply (proj1 (Forall_lookup _ _) Hrows); eauto.
Qed.

Lemma write2_lookup n m a i j (v : A) i' j' :
  shape2 n m a → i < n → j < m →
  (np.write2 i j v a !!! i') !!! j'
  = if decide ((i, j) = (i', j')) then v else (a !!! i') !!! j'.
Proof.
  intros Hsh Hi Hj. unfold np.write2.
  rewrite list_lookup_total_alter, (proj1 Hsh).
  destruct (decide (i = i')) as [<-|Hne].
  - rewrite decide_True by done. rewrite list_lookup_total_insert.
    rewrite (shape2_row_length n m) by done.
    destruct (decide (j = j')) as [<-|Hne].
    + by rewrite !decide_True by done.
    + rewrite !decide_False; [done|congruence|tauto].
  - rewrite !decide_False; [done|congruence|tauto].
Qed.

(** Writes at indices within the shape never raise, keep the shape, and
    leave at each position the last value written there. *)
Lemma setitem2_in_range n m a ws :
  shape2 n m a →
  Forall (λ w, w.1.1 < n ∧ w.1.2 < m) ws →
  ∃ a', np.setitem2 n m a ((λ w, (Z.of_nat w.1.1, Z.of_nat w.1.2, w.2)) <$> ws) = Ok a'
    ∧ shape2 n m a'
    ∧ ∀ i j, i < n → j < m →
        (a' !!! i) !!! j = last_written (i, j) ws ((a !!! i) !!! j).
Proof.
  revert a. induction ws as [|[[i0 j0] v] ws IH]; intros a Hsh Hin.
  - exists a. split_and!; done.
  - apply Forall_cons in Hin as [[Hi0 Hj0] Hin]. simpl in Hi0, Hj0.
    destruct (IH (np.write2 i0 j0 v a)) as (a' & Hrun & Hsh' & Hval);
      [by apply write2_shape|done|].
    exists a'. split_and!; [|done|].
    + rewrite fmap_cons. simpl.
      rewrite !norm_index_of_nat by done. simpl. done.
    + intros i j Hi Hj. rewrite Hval by done.
      rewrite last_written_cons. f_equal. simpl.
      by rewrite (write2_lookup n m).
Qed.
End setitem2.

Section setitem3.
Context {A : Type} `{!Inhabited A}.
Implicit Types (a : list (list (list A))) (ws : list (nat * nat * nat * A)).

Lemma shape3_plane n m p a i : shape3 n m p a → i < n → shape2 m p (a !!! i).
Proof.
  intros [Hlen Hplanes] Hi.
  destruct (lookup_lt_is_Some_2 a i) as [plane Hplane]; [lia|].
  rewrite (list_lookup_total_correct _ _ _ Hplane).
  eapply (proj1 (Forall_lookup _ _) Hplanes); eauto.
Qed.

Lemma write3_shape n m p a i j k (v : A) :
  shape3 n m p a → shape3 n m p (np.write3 i j k v a).
Proof.
  intros [Hlen Hplanes]. unfold np.write3. split.
  - by rewrite length_alter.
  - apply Forall_alter; [done|]. intros plane _ Hp.
    by apply (write2_shape m p).
Qed.

Lemma write3_lookup n m p a i j k (v : A) i' j' k' :
  shape3 n m p a → i < n → j < m → k < p →
  ((np.write3 i j k v a !!! i') !!! j') !!! k'
  = if decide ((i, j, k) = (i', j', k')) then v else ((a !!! i') !!! j') !!! k'.
Proof.
  intros Hsh Hi Hj Hk. unfold np.write3.
  rewrite list_lookup_total_alter, (proj1 Hsh).
  destruct (decide (i = i')) as [<-|Hne].
  - rewrite decide_True by done.
    rewrite (write2_lookup m p) by (done || by apply (shape3_plane n)).
    repeat case_decide; congruence.
  - rewrite !decide_False; [done|congruence|tauto].
Qed.

Lemma setitem3_in_range n m p a ws :
  shape3 n m p a →
  Forall (λ w, w.1.1.1 < n ∧ w.1.1.2 < m ∧ w.1.2 < p) ws →
  ∃ a', np.setitem3 n m p a
          ((λ w, (Z.of_nat w.1.1.1, Z.of_nat w.1.1.2, Z.of_nat w.1.2, w.2)) <$> ws)
        = Ok a'
    ∧ shape3 n m p a'
    ∧ ∀ i j k, i < n → j < m → k < p →
        ((a' !!! i) !!! j) !!! k = last_written (i, j, k) ws (((a !!! i) !!! j) !!! k).
Proof.
  revert a. induction ws as [|[[[i0 j0] k0] v] ws IH]; intros a Hsh Hin.
  - exists a. split_and!; done.
  - apply Forall_cons in Hin as [(Hi0 & Hj0 & Hk0) Hin]. simpl in Hi0, Hj0, Hk0.
    destruct (IH (np.write3 i0 j0 k0 v a)) as (a' & Hrun & Hsh' & Hval);
      [by apply write3_shape|done|].
    exists a'. split_and!; [|done|].
    + rewrite fmap_cons. simpl.
      rewrite !norm_index_of_nat by done. simpl. done.
    + intros i j k Hi Hj Hk. rewrite Hval by done.
      rewrite last_written_cons. f_equal. simpl.
      by rewrite (write3_lookup n m p).
Qed.
End setitem3.

Lemma zeros2_shape {A} (z : A) (n m : nat) : shape2 n m (np.zeros2 z n m).
Proof.
  unfold np.zeros2. split; [apply length_replicate|].
  apply Forall_replicate, length_replicate.
Qed.

Lemma zeros3_shape {A} (z : A) (n m p : nat) : shape3 n m p (np.zeros3 z n m p).
Proof.
  unfold np.zeros3. split; [apply length_replicate|].
  apply Forall_replicate. apply zeros2_shape.
Qed.

Lemma zeros2_lookup {A} `{!Inhabited A} (z : A) (n m i j : nat) :
  i < n → j < m → (np.zeros2 z n m !!! i) !!! j = z.
Proof. intros. unfold np.zeros2. by rewrite !lookup_total_replicate_2. Qed.

Lemma zeros3_lookup {A} `{!Inhabited A} (z : A) (n m p i j k : nat) :
  i < n → j < m → k < p → ((np.zeros3 z n m p !!! i) !!! j) !!! k = z.
Proof.
  intros. unfold np.zeros3. rewrite lookup_total_replicate_2 by done.
  by apply zeros2_lookup.
Qed.

Lemma zip_with_join {A B C} (f : A → B → C) (n : nat)
    (X : list (list A)) (Y : list (list B)) :
  length X = length Y →
  Forall (λ x, length x = n) X → Forall (λ y, length y = n) Y →
  zip_with f (mjoin X) (mjoin Y) = mjoin (zip_with (zip_with f) X Y).
Proof.
  revert Y. induction X as [|x X IH]; intros [|y Y] Hlen HX HY; simplify_eq/=; [done|].
  apply Forall_cons in HX as [Hx HX]. apply Forall_cons in HY as [Hy HY].
  rewrite zip_with_app by congruence. f_equal. by apply IH.
Qed.

(** ** regular_representation: the positions it writes *)

Lemma fmap_join {A B} (f : A → B) (ls : list (list A)) :
  f <$> mjoin ls = mjoin (fmap f <$> ls).
Proof. induction ls as [|l ls IH]; [done|]. simpl. by rewrite fmap_app, IH. Qed.

Lemma regular_representation_index (n : nat) (t : list (list Z)) :
  square n t →
  (∀ i j, i < n → j < n → (0 ≤ entry t i j < Z.of_nat n)%Z) →
  zip_with (λ a bc, (a, bc.1, bc.2, 1%float))
    (mjoin (np.meshgrid_ij n).1) (zip (mjoin t) (mjoin (np.meshgrid_ij n).2))
  = (λ w : nat * nat * nat * float,
       (Z.of_nat w.1.1.1, Z.of_nat w.1.1.2, Z.of_nat w.1.2, w.2))
    <$> regular_writes n t.
Proof.
  intros Hsq Hrange. pose proof Hsq as [Hlen Hrows]. unfold np.meshgrid_ij. cbn [fst snd].
  assert (length (replicate n (np.arange n)) = n) as Hh by apply length_replicate.
  assert (Forall (λ y : list Z, length y = n) (replicate n (np.arange n))) as Hhr
    by (apply Forall_replicate, length_arange).
  rewrite (zip_with_join pair n t) by (done || congruence).
  rewrite (zip_with_join _ n).
  2: { rewrite length_fmap, length_arange, length_zip_with, Hlen, Hh. lia. }
  2: { apply Forall_fmap, Forall_forall. intros a _. simpl. apply length_replicate. }
  2: { apply Forall_forall. intros r Hr.
       apply list_elem_of_lookup in Hr as [i Hr].
       apply lookup_zip_with_Some in Hr as (x & y & -> & Hx & Hy).
       rewrite length_zip_with.
       rewrite (proj1 (Forall_lookup _ _) Hrows _ _ Hx).
       rewrite (proj1 (Forall_lookup _ _) Hhr _ _ Hy). lia. }
  unfold regular_writes.
  rewrite fmap_join. f_equal. apply list_eq. intros a.
  rewrite !lookup_zip_with, !list_lookup_fmap.
  destruct (decide (a < n)) as [Ha|Ha].
  - rewrite lookup_arange, lookup_seq_lt, lookup_replicate_2 by done.
    destruct (lookup_lt_is_Some_2 t a) as [row Hrow]; [lia|].
    rewrite Hrow. simpl. f_equal.
    apply list_eq. intros b.
    rewrite !lookup_zip_with, !list_lookup_fmap.
    destruct (decide (b < n)) as [Hb|Hb].
    + destruct (square_lookup n t a b Hsq Ha Hb) as (row' & Hrow' & _ & Hz).
      simplify_eq.
      rewrite lookup_replicate_2, Hz, lookup_arange, lookup_seq_lt by done.
      simpl. rewrite Z2Nat.id by (apply Hrange; done). done.
    + rewrite lookup_seq_ge by lia. simpl.
      rewrite (proj1 (lookup_replicate_None n (Z.of_nat a) b)) by lia. done.
  - rewrite lookup_seq_ge by lia. unfold np.arange.
    rewrite lookup_seqZ_ge by lia. done.
Qed.

Lemma elem_of_regular_writes (n : nat) (t : list (list Z)) (w : nat * nat * nat * float) :
  w ∈ regular_writes n t
  ↔ ∃ a b, a < n ∧ b < n ∧ w = (a, Z.to_nat (entry t a b), b, 1%float).
Proof.
  unfold regular_writes. rewrite list_elem_of_join. split.
  - intros (l & Hw & Hl). apply list_elem_of_fmap in Hl as (a & -> & Ha).
    apply list_elem_of_fmap in Hw as (b & -> & Hb).
    apply elem_of_seq in Ha, Hb. exists a, b. split_and!; [lia..|done].
  - intros (a & b & Ha & Hb & ->).
    exists ((λ b, (a, Z.to_nat (entry t a b), b, 1%float)) <$> seq 0 n). split.
    + apply list_elem_of_fmap. exists b. split; [done|]. apply elem_of_seq. lia.
    + apply list_elem_of_fmap. exists a. split; [done|]. apply elem_of_seq. lia.
Qed.

Lemma regular_representation_entries (n : nat) (t : list (list Z)) :
  square n t →
  (∀ i j, i < n → j < n → (0 ≤ entry t i j < Z.of_nat n)%Z) →
  ∃ D, regular_representation t = Ok D
    ∧ shape3 n n n D
    ∧ ∀ g r h, g < n → r < n → h < n →
        ((D !!! g) !!! r) !!! h
        = if decide (Z.of_nat r = entry t g h) then 1%float else 0%float.
Proof.
  intros Hsq Hrange.
  destruct (setitem3_in_range n n n (np.zeros3 0%float n n n) (regular_writes n t))
    as (D & Hrun & Hsh & Hval).
  { apply zeros3_shape. }
  { apply Forall_forall. intros w Hw.
    apply elem_of_regular_writes in Hw as (a & b & Ha & Hb & ->). simpl.
    split_and!; [done| |done]. specialize (Hrange a b Ha Hb). lia. }
  exists D. split_and!; [|done|].
  - unfold regular_representation. rewrite (proj1 Hsq).
    rewrite <- Hrun, <- (regular_representation_index n t) by done. done.
  - intros g r h Hg Hr Hh. rewrite Hval, zeros3_lookup by done.
    rewrite (last_written_const _ _ _ 1%float).
    2: { intros w Hw. by apply elem_of_regular_writes in Hw as (a & b & _ & _ & ->). }
    destruct (decide (Z.of_nat r = entry t g h)) as [Heq|Hne].
    + rewrite decide_True; [done|]. apply list_elem_of_fmap.
      exists (g, r, h, 1%float). split; [done|].
      apply elem_of_regular_writes. exists g, h. split_and!; [done..|].
      by rewrite <- Heq, Nat2Z.id.
    + rewrite decide_False; [done|]. intros Hin. apply Hne.
      apply list_elem_of_fmap in Hin as (w & Hw & Hin).
      apply elem_of_regular_writes in Hin as (a & b & Ha & Hb & ->).
      simpl in Hw. simplify_eq. specialize (Hrange a b Ha Hb). lia.
Qed.

(** ** make_multiplication_table: the matches and the writes *)

Lemma elem_of_nonzero2 (b : list (list bool)) (i j : nat) :
  (i, j) ∈ np.nonzero2 b ↔ lookup2 b i j = Some true.
Proof.
  unfold np.nonzero2, lookup2. rewrite list_elem_of_join. split.
  - intros (l & Hin & Hl). apply elem_of_lookup_imap in Hl as (i' & row & -> & Hrow).
    apply list_elem_of_fmap in Hin as (j' & [= -> ->] & Hj).
    rewrite Hrow. by apply elem_of_nonzero.
  - destruct (b !! i) as [row|] eqn:Hrow; [|done]. intros Hj.
    exists (pair i <$> np.nonzero row). split.
    + apply list_elem_of_fmap. exists j. split; [done|]. by apply elem_of_nonzero.
    + apply elem_of_lookup_imap. eauto.
Qed.

Lemma nonzero3_snoc (c : list (list (list bool))) (p : list (list bool)) :
  np.nonzero3 (c ++ [p])
  = np.nonzero3 c ++ ((λ ij : nat * nat, (length c, ij.1, ij.2)) <$> np.nonzero2 p).
Proof.
  unfold np.nonzero3. rewrite imap_app, join_app. f_equal. simpl.
  by rewrite Nat.add_0_r, app_nil_r.
Qed.

Lemma lookup3_snoc (c : list (list (list bool))) (p : list (list bool)) (k i j : nat) :
  lookup3 (c ++ [p]) k i j
  = if decide (k = length c) then lookup2 p i j else lookup3 c k i j.
Proof.
  unfold lookup3. destruct (decide (k = length c)) as [->|Hne].
  - by rewrite list_lookup_middle.
  - destruct (decide (k < length c)).
    + by rewrite lookup_app_l.
    + rewrite !lookup_ge_None_2; [done|lia|]. rewrite length_app. simpl. lia.
Qed.

Lemma lookup3_lt (c : list (list (list bool))) (k i j : nat) (b : bool) :
  lookup3 c k i j = Some b → k < length c.
Proof.
  unfold lookup3. destruct (c !! k) eqn:E; [|done]. intros _.
  by apply lookup_lt_Some in E.
Qed.

(** After all writes, position (i, j) holds 0 if no plane matched there,
    and otherwise the index of the last plane that matched. *)
Lemma last_written_table_writes (c : list (list (list bool))) (i j : nat) :
  (last_written (i, j) (table_writes c) 0%Z = 0%Z
   ∧ ∀ k, lookup3 c k i j ≠ Some true)
  ∨ ∃ k, lookup3 c k i j = Some true
      ∧ last_written (i, j) (table_writes c) 0%Z = int32 (Z.of_nat k)
      ∧ ∀ k', lookup3 c k' i j = Some true → k' ≤ k.
Proof.
  induction c as [|p c IH] using rev_ind.
  - left. split; [done|]. intros k. unfold lookup3. by rewrite lookup_nil.
  - unfold table_writes. rewrite nonzero3_snoc, fmap_app, last_written_app.
    fold (table_writes c). rewrite <- list_fmap_compose.
    rewrite (last_written_const _ _ _ (int32 (Z.of_nat (length c)))).
    2: { intros w Hw. by apply list_elem_of_fmap in Hw as (ij & -> & _). }
    rewrite <- list_fmap_compose.
    assert ((i, j) ∈ ((λ ij : nat * nat, (ij.1, ij.2)) <$> np.nonzero2 p)
            ↔ lookup2 p i j = Some true) as Hin.
    { rewrite <- elem_of_nonzero2, list_elem_of_fmap. split.
      - intros ([i' j'] & [= -> ->] & H). done.
      - intros H. by exists (i, j). }
    simpl. case_decide as Hhit.
    + right. exists (length c). split_and!; [|done|].
      * rewrite lookup3_snoc, decide_True by done. by apply Hin.
      * intros k' Hk'. apply lookup3_lt in Hk'. rewrite length_app in Hk'.
        simpl in Hk'. lia.
    + assert (lookup2 p i j ≠ Some true) as Hmiss by (intros H; by apply Hhit, Hin).
      destruct IH as [[Hr Hnone]|(k & Hk & Hr & Hmax)].
      * left. split; [done|]. intros k. rewrite lookup3_snoc.
        case_decide; [done|apply Hnone].
      * right. exists k. split_and!; [|done|].
        -- rewrite lookup3_snoc. apply lookup3_lt in Hk as Hlt.
           rewrite decide_False by lia. done.
        -- intros k'. rewrite lookup3_snoc. case_decide; [done|apply Hmax].
Qed.

Lemma elem_of_nonzero3 (c : list (list (list bool))) (k i j : nat) :
  (k, i, j) ∈ np.nonzero3 c → lookup3 c k i j = Some true.
Proof.
  unfold np.nonzero3, lookup3. rewrite list_elem_of_join.
  intros (l & Hin & Hl). apply elem_of_lookup_imap in Hl as (k' & plane & -> & Hplane).
  apply list_elem_of_fmap in Hin as ([i' j'] & [= -> -> ->] & Hij).
  rewrite Hplane. by apply elem_of_nonzero2.
Qed.

Lemma all_true_lookup (l : list bool) :
  np.all l = true ↔ ∀ i b, l !! i = Some b → b = true.
Proof.
  unfold np.all. induction l as [|x l IH]; simpl.
  - split; [intros _ i b H; by rewrite lookup_nil in H|done].
  - unfold id at 1. rewrite andb_true_iff, IH. split.
    + intros [-> H] [|i] b Hb; simplify_eq/=; eauto.
    + intros H. split; [by apply (H 0)|]. intros i b Hb. by apply (H (S i)).
Qed.

Lemma matmul_shape (d : nat) (a b : list (list float)) : shape2 d d (np.matmul d a b).
Proof.
  unfold np.matmul. split.
  - by rewrite length_fmap, length_seq.
  - apply Forall_fmap, Forall_forall. intros i _. simpl.
    by rewrite length_fmap, length_seq.
Qed.

Lemma shape2_lookup {A} `{!Inhabited A} (n m : nat) (a : list (list A)) (i j : nat) :
  shape2 n m a → i < n → j < m →
  ∃ row, a !! i = Some row ∧ length row = m ∧ row !! j = Some ((a !!! i) !!! j).
Proof.
  intros [Hlen Hrows] Hi Hj.
  destruct (lookup_lt_is_Some_2 a i) as [row Hrow]; [lia|].
  assert (length row = m) as Hr by (eapply (proj1 (Forall_lookup _ _) Hrows); eauto).
  destruct (lookup_lt_is_Some_2 row j) as [z Hz]; [lia|].
  exists row. split_and!; [done..|].
  by rewrite (list_lookup_total_correct _ _ _ Hrow), (list_lookup_total_correct _ _ _ Hz).
Qed.

(** The double reduction with [np.all] is the entrywise statement. *)
Lemma mask_cell (d : nat) (tol : float) (P Q : list (list float)) :
  shape2 d d P → shape2 d d Q →
  np.all (np.all <$>
    ((λ r : list float, (λ x, PrimFloat.ltb (PrimFloat.abs x) tol) <$> r)
       <$> np.sub2 P Q)) = true
  ↔ close_to d tol P Q.
Proof.
  intros HP HQ. unfold close_to, np.sub2. rewrite all_true_lookup. split.
  - intros H a b Ha Hb.
    destruct (shape2_lookup d d P a b HP Ha Hb) as (p & Hp & _ & Hpb).
    destruct (shape2_lookup d d Q a b HQ Ha Hb) as (q & Hq & _ & Hqb).
    assert (np.all ((λ x, PrimFloat.ltb (PrimFloat.abs x) tol)
                      <$> zip_with PrimFloat.sub p q) = true) as Hrow.
    { apply (H a). by rewrite !list_lookup_fmap, lookup_zip_with, Hp, Hq. }
    rewrite all_true_lookup in Hrow. apply (Hrow b).
    by rewrite list_lookup_fmap, lookup_zip_with, Hpb, Hqb.
  - intros H a x. rewrite !list_lookup_fmap, lookup_zip_with.
    destruct (P !! a) as [p|] eqn:Hp; [|done]. simpl.
    destruct (Q !! a) as [q|] eqn:Hq; [|done]. simpl. intros [= <-].
    apply all_true_lookup. intros b y.
    rewrite list_lookup_fmap, lookup_zip_with.
    destruct (p !! b) as [u|] eqn:Hu; [|done]. simpl.
    destruct (q !! b) as [v|] eqn:Hv; [|done]. simpl. intros [= <-].
    assert (a < d) as Ha by (apply lookup_lt_Some in Hp; by rewrite (proj1 HP) in Hp).
    assert (b < d) as Hb.
    { apply lookup_lt_Some in Hu.
      rewrite (proj1 (Forall_lookup _ _) (proj2 HP) _ _ Hp) in Hu. done. }
    specialize (H a b Ha Hb).
    by rewrite (list_lookup_total_correct _ _ _ Hp), (list_lookup_total_correct _ _ _ Hq),
      (list_lookup_total_correct _ _ _ Hu), (list_lookup_total_correct _ _ _ Hv) in H.
Qed.

Lemma match_mask_lookup (d : nat) (tol : float) (M : list (list (list float)))
    (k i j : nat) :
  k < length M → i < length M → j < length M →
  lookup3 (match_mask d tol M) k i j
  = Some (np.all (np.all <$>
      ((λ r : list float, (λ x, PrimFloat.ltb (PrimFloat.abs x) tol) <$> r)
         <$> np.sub2 (np.matmul d (M !!! i) (M !!! j)) (M !!! k)))).
Proof.
  intros Hk Hi Hj.
  destruct (lookup_lt_is_Some_2 M k) as [Mk HMk]; [done|].
  destruct (lookup_lt_is_Some_2 M i) as [Mi HMi]; [done|].
  destruct (lookup_lt_is_Some_2 M j) as [Mj HMj]; [done|].
  rewrite (list_lookup_total_correct _ _ _ HMk), (list_lookup_total_correct _ _ _ HMi),
    (list_lookup_total_correct _ _ _ HMj).
  unfold lookup3, lookup2, match_mask, np.einsum_nij_mjk_nmik.
  rewrite !list_lookup_fmap, HMk. simpl.
  rewrite !list_lookup_fmap, HMi. simpl.
  rewrite !list_lookup_fmap, HMj. simpl. done.
Qed.

Lemma match_mask_lookup_ge (d : nat) (tol : float) (M : list (list (list float)))
    (k i j : nat) (b : bool) :
  lookup3 (match_mask d tol M) k i j = Some b →
  k < length M ∧ i < length M ∧ j < length M.
Proof.
  unfold lookup3, lookup2, match_mask, np.einsum_nij_mjk_nmik.
  rewrite !list_lookup_fmap.
  destruct (M !! k) as [Mk|] eqn:HMk; [|done]. simpl.
  rewrite !list_lookup_fmap.
  destruct (M !! i) as [Mi|] eqn:HMi; [|done]. simpl.
  rewrite !list_lookup_fmap.
  destruct (M !! j) as [Mj|] eqn:HMj; [|done]. simpl. intros _.
  apply lookup_lt_Some in HMk, HMi, HMj. done.
Qed.

Lemma match_mask_hit (n d : nat) (tol : float) (M : list (list (list float)))
    (k i j : nat) :
  length M = n → Forall (shape2 d d) M → i < n → j < n →
  lookup3 (match_mask d tol M) k i j = Some true
  ↔ k < n ∧ product_matches d tol M i j k.
Proof.
  intros Hlen HM Hi Hj. unfold product_matches.
  assert (∀ k', k' < n → shape2 d d (M !!! k')) as HQ.
  { intros k' Hk'.
    destruct (lookup_lt_is_Some_2 M k') as [Mk HMk]; [lia|].
    rewrite (list_lookup_total_correct _ _ _ HMk).
    eapply (proj1 (Forall_lookup _ _) HM); eauto. }
  split.
  - intros H. destruct (match_mask_lookup_ge _ _ _ _ _ _ _ H) as (Hk & _ & _).
    rewrite match_mask_lookup in H by lia. injection H as H.
    split; [lia|].
    apply (mask_cell d tol _ _ (matmul_shape d _ _) (HQ k ltac:(lia))). done.
  - intros [Hk H]. rewrite match_mask_lookup by lia. f_equal.
    by apply (mask_cell d tol _ _ (matmul_shape d _ _) (HQ k Hk)).
Qed.

Lemma make_multiplication_table_unfold (arr : ndarray3) (tol_kw : option float)
    (n d : nat) :
  shape arr = (n, d, d) →
  make_multiplication_table arr tol_kw
  = np.setitem2 n n (np.zeros2 0%Z n n)
      ((λ w : nat * nat * Z, (Z.of_nat w.1.1, Z.of_nat w.1.2, w.2))
         <$> table_writes (match_mask d (default default_tol tol_kw) (data arr))).
Proof.
  intros Hshape. unfold table_writes. rewrite <- list_fmap_compose.
  unfold make_multiplication_table. rewrite Hshape, Nat.eqb_refl. reflexivity.
Qed.

(** What [make_multiplication_table] returns on n matrices of shape d×d:
    it does not raise, the table is n×n, and entry (i, j) is 0 when no
    matrix matches the product, and otherwise the largest index of a
    matching matrix, converted to int32. *)
Lemma make_multiplication_table_entries (arr : ndarray3) (tol_kw : option float)
    (n d : nat) :
  shape arr = (n, d, d) → wf_ndarray3 arr →
  ∃ table, make_multiplication_table arr tol_kw = Ok table
    ∧ square n table
    ∧ ∀ i j, i < n → j < n →
        (entry table i j = 0%Z
         ∧ ∀ k, k < n →
             ¬ product_matches d (default default_tol tol_kw) (data arr) i j k)
        ∨ ∃ k, k < n
            ∧ product_matches d (default default_tol tol_kw) (data arr) i j k
            ∧ entry table i j = int32 (Z.of_nat k)
            ∧ ∀ k', k' < n →
                product_matches d (default default_tol tol_kw) (data arr) i j k' →
                k' ≤ k.
Proof.
  intros Hshape Hwf. unfold wf_ndarray3 in Hwf. rewrite Hshape in Hwf.
  destruct Hwf as [Hlen HM].
  set (tol := default default_tol tol_kw).
  set (c := match_mask d tol (data arr)).
  destruct (setitem2_in_range n n (np.zeros2 0%Z n n) (table_writes c))
    as (table & Hrun & Hsh & Hval).
  { apply zeros2_shape. }
  { apply Forall_forall. intros w Hw. unfold table_writes in Hw.
    apply list_elem_of_fmap in Hw as ([[k i] j] & -> & Hin). simpl.
    apply elem_of_nonzero3 in Hin.
    apply match_mask_lookup_ge in Hin. lia. }
  exists table. split_and!.
  - by rewrite (make_multiplication_table_unfold arr tol_kw n d).
  - exact Hsh.
  - intros i j Hi Hj. unfold entry. rewrite Hval, zeros2_lookup by done.
    destruct (last_written_table_writes c i j) as [[Hr Hnone]|(k & Hk & Hr & Hmax)].
    + left. split; [done|]. intros k Hk Hm. apply (Hnone k).
      by apply (match_mask_hit n d).
    + right. apply (match_mask_hit n d) in Hk as [Hk Hm]; [|done..].
      exists k. split_and!; [done..|].
      intros k' Hk' Hm'. apply Hmax. by apply (match_mask_hit n d).
Qed.

(** * The claims of the specification *)

(** ** identity *)

(** C2. On an n×n table, [identity] returns [i] exactly when row [i] is the
    only row equal to [0, 1, ..., n-1]; when no row or more than one row
    is, it fails with "No or multiple identities" -- in particular when two
    different rows both equal [0, 1, ..., n-1]. *)
Theorem identity_unique_row (n : nat) (t : list (list Z)) :
  square n t →
  (∀ i, identity t = Ok i
        ↔ identity_row n t i ∧ ∀ i', identity_row n t i' → i' = i)
  ∧ ((¬ ∃ i, identity_row n t i ∧ ∀ i', identity_row n t i' → i' = i) →
     identity t = Raise (ValueError "No or multiple identities"))
  ∧ (∀ i i', i ≠ i' → identity_row n t i → identity_row n t i' →
     identity t = Raise (ValueError "No or multiple identities")).
Proof.
  intros Hsq.
  assert ((¬ ∃ i, identity_row n t i ∧ ∀ i', identity_row n t i' → i' = i) →
          identity t = Raise (ValueError "No or multiple identities")) as Hfail.
  { intros Hno. destruct (identity_cases t) as [[i Hi]|Hr]; [|done].
    exfalso. apply Hno. exists i. by apply (identity_Ok n). }
  split_and!.
  - intros i. by apply identity_Ok.
  - done.
  - intros i i' Hne Hi Hi'. apply Hfail. intros (e & He & Hu).
    apply Hne. by rewrite (Hu i), (Hu i').
Qed.

Lemma identity_unique_row_witness :
  identity [[0;1];[0;1]]%Z = Raise (ValueError "No or multiple identities")
  ∧ identity [[0;1];[1;0]]%Z = Ok 0.
Proof.
  split.
  - refine (proj2 (proj2 (identity_unique_row 2 [[0;1];[0;1]]%Z _)) 0 1 _ _ _).
    + split; [reflexivity|]. repeat constructor.
    + lia.
    + reflexivity.
    + reflexivity.
  - reflexivity.
Defined.

(** ** inverses *)

Lemma c3_table_valid : valid_group_table 3 c3_table.
Proof.
  split.
  - split; [reflexivity|]. repeat constructor.
  - intros i Hi. destruct i as [|[|[|i]]]; [| | |lia];
      apply (bool_decide_unpack _); vm_compute; exact I.
  - intros j Hj. destruct j as [|[|[|j]]]; [| | |lia];
      apply (bool_decide_unpack _); vm_compute; exact I.
  - exists 0. split; [reflexivity|]. intros e' He'. unfold identity_row in He'.
    destruct e' as [|[|[|e']]]; [done|discriminate..].
Qed.

(** C3. On a valid n×n group table [inverses] returns a sequence [inv] of
    length n with [table[i, inv[i]]] equal to the identity for every i, and
    [inv[i]] is the only such column.  Whenever the identity exists and
    the number of (row, column) pairs mapping to it is not n, or the row
    indices of these pairs, in scan order, are not exactly 0, 1, ..., n-1,
    [inverses] fails with "Every element does not have one inverse". *)
Theorem inverses_correct (n : nat) (t : list (list Z)) :
  square n t →
  (valid_group_table n t →
   ∃ e inv, identity t = Ok e ∧ inverses t = Ok inv ∧ length inv = n
     ∧ ∀ i, i < n →
         ∃ j, inv !! i = Some j ∧ j < n ∧ entry t i j = Z.of_nat e
           ∧ ∀ j', j' < n → entry t i j' = Z.of_nat e → j' = j)
  ∧ (∀ e, identity t = Ok e →
     length (cells_equal_to n t (Z.of_nat e)) ≠ n
     ∨ (cells_equal_to n t (Z.of_nat e)).*1 ≠ seq 0 n →
     inverses t = Raise (ValueError "Every element does not have one inverse")).
Proof.
  intros Hsq. split.
  - intros Hv. destruct (valid_inverse_map n t Hv) as (e & f & He & _ & Hf & Hinv).
    exists e, (f <$> seq 0 n). split_and!; [done..| |].
    + by rewrite length_fmap, length_seq.
    + intros i Hi. destruct (Hf i Hi) as [Hlt Hu]. exists (f i). split_and!.
      * by rewrite list_lookup_fmap, lookup_seq_lt.
      * done.
      * by apply Hu.
      * intros j' Hj' Hj. by apply Hu.
  - intros e He Hbad. rewrite (inverses_unfold n t e) by done.
    rewrite decide_False; [done|]. intros Hrows. destruct Hbad as [Hlen|Hne]; [|done].
    apply Hlen. rewrite <- (length_fmap fst), Hrows. apply length_seq.
Qed.

Lemma inverses_correct_witness :
  (∃ e inv, identity c3_table = Ok e ∧ inverses c3_table = Ok inv ∧ length inv = 3
     ∧ ∀ i, i < 3 →
         ∃ j, inv !! i = Some j ∧ j < 3 ∧ entry c3_table i j = Z.of_nat e
           ∧ ∀ j', j' < 3 → entry c3_table i j' = Z.of_nat e → j' = j)
  ∧ inverses [[0;1];[1;1]]%Z
    = Raise (ValueError "Every element does not have one inverse").
Proof.
  split.
  - refine (proj1 (inverses_correct 3 c3_table _) c3_table_valid).
    split; [reflexivity|]. repeat constructor.
  - refine (proj2 (inverses_correct 2 [[0;1];[1;1]]%Z _) 0 _ _).
    + split; [reflexivity|]. repeat constructor.
    + reflexivity.
    + left. vm_compute. lia.
Defined.

(** C6. On a valid group table the result of [inverses] is a permutation
    of 0, ..., n-1: no two elements share an inverse and every index is the
    inverse of some element. *)
Theorem inverses_permutation (n : nat) (t : list (list Z)) :
  valid_group_table n t →
  ∃ inv, inverses t = Ok inv
    ∧ inv ≡ₚ seq 0 n
    ∧ (∀ i i' j, inv !! i = Some j → inv !! i' = Some j → i = i')
    ∧ (∀ j, j < n → ∃ i, i < n ∧ inv !! i = Some j).
Proof.
  intros Hv. destruct (valid_inverse_map n t Hv) as (e & f & He & Hlt & Hf & Hinv).
  pose proof (vg_square _ _ Hv) as Hsq.
  assert (∀ i i', i < n → i' < n → f i = f i' → i = i') as Hinj.
  { intros i i' Hi Hi' Heq.
    destruct (Hf i Hi) as [Hfi Hu]. destruct (Hf i' Hi') as [Hfi' Hu'].
    assert (entry t i (f i) = Z.of_nat e) as H1 by (by apply Hu).
    assert (entry t i' (f i) = Z.of_nat e) as H2 by (rewrite Heq; by apply Hu').
    assert (NoDup (column t (f i))) as Hnd
      by (rewrite (vg_columns _ _ Hv (f i) Hfi); apply NoDup_arange).
    eapply (NoDup_lookup _ _ _ _ Hnd).
    - rewrite (column_lookup n) by done. by rewrite H1.
    - rewrite (column_lookup n) by done. by rewrite H2. }
  assert (∀ j, j < n → ∃ i, i < n ∧ f i = j) as Hsurj.
  { intros j Hj.
    destruct (perm_arange_position n (column t j) (Z.of_nat e)) as (i & Hi & Hlk & _);
      [by apply (vg_columns _ _ Hv)|lia|].
    exists i. split; [done|]. rewrite (column_lookup n) in Hlk by done.
    injection Hlk as Hlk. symmetry. by apply (Hf i Hi). }
  assert (∀ i j, (f <$> seq 0 n) !! i = Some j ↔ i < n ∧ f i = j) as Hlk.
  { intros i j. rewrite list_lookup_fmap. destruct (decide (i < n)).
    - rewrite lookup_seq_lt by done. simpl. split; [intros [= <-]; done|].
      intros [_ <-]. done.
    - rewrite lookup_seq_ge by lia. simpl. split; [done|lia]. }
  exists (f <$> seq 0 n). split_and!; [done| | |].
  - apply NoDup_Permutation; [|apply NoDup_seq|].
    + apply NoDup_fmap_2_strong; [|apply NoDup_seq].
      intros i i' Hi%elem_of_seq Hi'%elem_of_seq. apply Hinj; lia.
    + intros j. rewrite list_elem_of_fmap, elem_of_seq. split.
      * intros (i & -> & Hi%elem_of_seq). destruct (Hf i); lia.
      * intros Hj. destruct (Hsurj j) as (i & Hi & <-); [lia|].
        exists i. split; [done|]. apply elem_of_seq. lia.
  - intros i i' j [Hi Hfi]%Hlk [Hi' Hfi']%Hlk. apply Hinj; congruence.
  - intros j Hj. destruct (Hsurj j Hj) as (i & Hi & Hfi).
    exists i. split; [done|]. by apply Hlk.
Qed.

Lemma inverses_permutation_witness :
  ∃ inv, inverses c3_table = Ok inv
    ∧ inv ≡ₚ seq 0 3
    ∧ (∀ i i' j, inv !! i = Some j → inv !! i' = Some j → i = i')
    ∧ (∀ j, j < 3 → ∃ i, i < 3 ∧ inv !! i = Some j).
Proof. exact (inverses_permutation 3 c3_table c3_table_valid). Defined.

(** C9. For the cyclic group of order n ≥ 1, with
    [table[i, j] = (i + j) mod n], [identity] returns 0 and [inverses]
    returns the sequence whose entry i is [(n - i) mod n]; for n = 1 these
    are 0 and [[0]]. *)
Theorem cyclic_identity_inverses (n : nat) :
  1 ≤ n →
  identity (cyclic_table n) = Ok 0
  ∧ inverses (cyclic_table n) = Ok ((λ i, (n - i) `mod` n) <$> seq 0 n)
  ∧ ∀ i, i < n →
      ∃ inv, inverses (cyclic_table n) = Ok inv ∧ inv !! i = Some ((n - i) `mod` n).
Proof.
  intros Hn.
  assert (inverses (cyclic_table n) = Ok ((λ i, (n - i) `mod` n) <$> seq 0 n)) as Hinv.
  { apply (inverses_of_unique n _ 0).
    - apply cyclic_table_square.
    - apply cyclic_table_identity. lia.
    - intros i Hi. split; [apply Nat.mod_upper_bound; lia|].
      intros j Hj. rewrite cyclic_table_entry by done.
      rewrite <- (cyclic_table_inverse n i j) by done. lia. }
  split_and!; [apply cyclic_table_identity; lia|done|].
  intros i Hi. eexists. split; [done|].
  by rewrite list_lookup_fmap, lookup_seq_lt.
Qed.

Lemma cyclic_identity_inverses_witness :
  identity (cyclic_table 1) = Ok 0 ∧ inverses (cyclic_table 1) = Ok [0].
Proof.
  pose proof (cyclic_identity_inverses 1 (le_n 1)) as (H1 & H2 & _).
  split; [exact H1|exact H2].
Defined.

(** ** regular_representation *)

Lemma float_one_ne_zero : 1%float ≠ 0%float.
Proof.
  intros H.
  assert (PrimFloat.is_zero 1 = PrimFloat.is_zero 0) as Hz by (by rewrite H).
  vm_compute in Hz. discriminate.
Qed.

(** C4. On an n×n table with entries in 0, ..., n-1 (as every valid
    multiplication table has), [regular_representation] returns a stack
    [D] of n matrices of size n×n with [D[g][table[g, h], h] = 1] for all g
    and h, and every other entry 0. *)
Theorem regular_representation_correct (n : nat) (t : list (list Z)) :
  square n t →
  (∀ i j, i < n → j < n → (0 ≤ entry t i j < Z.of_nat n)%Z) →
  ∃ D, regular_representation t = Ok D
    ∧ shape3 n n n D
    ∧ (∀ g h, g < n → h < n →
         ((D !!! g) !!! Z.to_nat (entry t g h)) !!! h = 1%float)
    ∧ (∀ g r h, g < n → r < n → h < n → Z.of_nat r ≠ entry t g h →
         ((D !!! g) !!! r) !!! h = 0%float).
Proof.
  intros Hsq Hrange.
  destruct (regular_representation_entries n t Hsq Hrange) as (D & Hrun & Hsh & Hval).
  exists D. split_and!; [done..| |].
  - intros g h Hg Hh. specialize (Hrange g h Hg Hh).
    rewrite Hval by lia. rewrite decide_True; [done|lia].
  - intros g r h Hg Hr Hh Hne. rewrite Hval by done. by rewrite decide_False.
Qed.

Lemma c3_table_square : square 3 c3_table.
Proof. split; [reflexivity|]. repeat constructor. Qed.

Lemma c3_table_range (i j : nat) : i < 3 → j < 3 → (0 ≤ entry c3_table i j < 3)%Z.
Proof.
  intros Hi Hj.
  destruct i as [|[|[|i]]]; [| | |lia]; destruct j as [|[|[|j]]]; try lia;
    vm_compute; (split; [discriminate|reflexivity]).
Qed.

Lemma regular_representation_correct_witness :
  ∃ D, regular_representation c3_table = Ok D
    ∧ shape3 3 3 3 D
    ∧ (∀ g h, g < 3 → h < 3 →
         ((D !!! g) !!! Z.to_nat (entry c3_table g h)) !!! h = 1%float)
    ∧ (∀ g r h, g < 3 → r < 3 → h < 3 → Z.of_nat r ≠ entry c3_table g h →
         ((D !!! g) !!! r) !!! h = 0%float).
Proof.
  exact (regular_representation_correct 3 c3_table c3_table_square c3_table_range).
Defined.

(** C8. On an n×n table each of whose rows is a permutation of
    0, ..., n-1, every matrix [D[g]] returned by [regular_representation] is
    a 0/1 permutation matrix: every entry is 0 or 1, and every row and
    every column of [D[g]] holds exactly one 1. *)
Theorem regular_representation_permutation (n : nat) (t : list (list Z)) :
  square n t →
  (∀ i, i < n → t !!! i ≡ₚ np.arange n) →
  ∃ D, regular_representation t = Ok D
    ∧ shape3 n n n D
    ∧ ∀ g, g < n →
        (∀ r c, r < n → c < n →
           ((D !!! g) !!! r) !!! c = 0%float ∨ ((D !!! g) !!! r) !!! c = 1%float)
        ∧ (∀ r, r < n →
             ∃ c, c < n ∧ ((D !!! g) !!! r) !!! c = 1%float
               ∧ ∀ c', c' < n → ((D !!! g) !!! r) !!! c' = 1%float → c' = c)
        ∧ (∀ c, c < n →
             ∃ r, r < n ∧ ((D !!! g) !!! r) !!! c = 1%float
               ∧ ∀ r', r' < n → ((D !!! g) !!! r') !!! c = 1%float → r' = r).
Proof.
  intros Hsq Hperm.
  assert (∀ i j, i < n → j < n → (0 ≤ entry t i j < Z.of_nat n)%Z) as Hrange.
  { intros i j Hi Hj. apply elem_of_arange. rewrite <- (Hperm i Hi).
    destruct (square_lookup n t i j Hsq Hi Hj) as (row & Hrow & _ & Hz).
    rewrite (list_lookup_total_correct _ _ _ Hrow). by eapply list_elem_of_lookup_2. }
  destruct (regular_representation_entries n t Hsq Hrange) as (D & Hrun & Hsh & Hval).
  assert (∀ g r c, g < n → r < n → c < n →
            ((D !!! g) !!! r) !!! c = 1%float ↔ Z.of_nat r = entry t g c) as Hone.
  { intros g r c Hg Hr Hc. rewrite Hval by done. case_decide; [done|].
    split; [|done]. intros Hf. symmetry in Hf. by apply float_one_ne_zero in Hf. }
  exists D. split_and!; [done..|]. intros g Hg. split_and!.
  - intros r c Hr Hc. rewrite Hval by done. case_decide; auto.
  - intros r Hr.
    destruct (perm_arange_position n (t !!! g) (Z.of_nat r)) as (c & Hc & Hlk & Hu);
      [by apply Hperm|lia|].
    assert (∀ c', c' < n → (t !!! g) !! c' = Some (entry t g c')) as Hrow.
    { intros c' Hc'. destruct (square_lookup n t g c' Hsq Hg Hc') as (row & Hrow & _ & Hz).
      by rewrite (list_lookup_total_correct _ _ _ Hrow). }
    exists c. split_and!; [done| |].
    + apply Hone; [done..|]. rewrite Hrow in Hlk by done. by injection Hlk.
    + intros c' Hc' H1. apply Hu. rewrite Hrow by done. f_equal. symmetry.
      by apply Hone.
  - intros c Hc. specialize (Hrange g c Hg Hc).
    exists (Z.to_nat (entry t g c)). split_and!; [lia| |].
    + apply Hone; [done|lia|done|lia].
    + intros r' Hr' H1. apply Hone in H1; [|done..]. lia.
Qed.

Lemma c3_table_rows (i : nat) : i < 3 → c3_table !!! i ≡ₚ np.arange 3.
Proof. apply (vg_rows _ _ c3_table_valid). Qed.

Lemma regular_representation_permutation_witness :
  ∃ D, regular_representation c3_table = Ok D
    ∧ shape3 3 3 3 D
    ∧ ∀ g, g < 3 →
        (∀ r c, r < 3 → c < 3 →
           ((D !!! g) !!! r) !!! c = 0%float ∨ ((D !!! g) !!! r) !!! c = 1%float)
        ∧ (∀ r, r < 3 →
             ∃ c, c < 3 ∧ ((D !!! g) !!! r) !!! c = 1%float
               ∧ ∀ c', c' < 3 → ((D !!! g) !!! r) !!! c' = 1%float → c' = c)
        ∧ (∀ c, c < 3 →
             ∃ r, r < 3 ∧ ((D !!! g) !!! r) !!! c = 1%float
               ∧ ∀ r', r' < 3 → ((D !!! g) !!! r') !!! c = 1%float → r' = r).
Proof.
  exact (regular_representation_permutation 3 c3_table c3_table_square c3_table_rows).
Defined.

(** ** make_multiplication_table *)

Lemma int32_small (z : Z) : (- 2 ^ 31 ≤ z < 2 ^ 31)%Z → int32 z = z.
Proof. intros Hz. unfold int32. rewrite Z.mod_small by lia. lia. Qed.

(** C1. On n matrices of dimension d×d such that every product
    [matrices[i] @ matrices[j]] matches exactly one [matrices[k]] within
    the tolerance, [make_multiplication_table] returns the n×n table with
    [table[i, j] = k] if and only if [matrices[i] @ matrices[j]] matches
    [matrices[k]], a match being that each of the d×d entries of the
    absolute difference is strictly below the tolerance ([close_to]); the
    tolerance is [tol] when given and 1e-8 otherwise. *)
Theorem make_multiplication_table_correct (matrices : ndarray3)
    (tol_kw : option float) (n d : nat) :
  shape matrices = (n, d, d) → wf_ndarray3 matrices → (Z.of_nat n ≤ 2 ^ 31)%Z →
  (∀ i j, i < n → j < n →
     ∃ k, k < n
       ∧ product_matches d (match tol_kw with Some tol => tol | None => 1e-8%float end)
           (data matrices) i j k
       ∧ ∀ k', k' < n →
           product_matches d (match tol_kw with Some tol => tol | None => 1e-8%float end)
             (data matrices) i j k' →
           k' = k) →
  ∃ table, make_multiplication_table matrices tol_kw = Ok table
    ∧ square n table
    ∧ ∀ i j k, i < n → j < n → k < n →
        entry table i j = Z.of_nat k
        ↔ product_matches d (match tol_kw with Some tol => tol | None => 1e-8%float end)
            (data matrices) i j k.
Proof.
  intros Hshape Hwf Hn Hclosed.
  destruct (make_multiplication_table_entries matrices tol_kw n d Hshape Hwf)
    as (table & Hrun & Hsq & Hval).
  replace (default default_tol tol_kw)
    with (match tol_kw with Some tol => tol | None => 1e-8%float end) in Hval
    by (by destruct tol_kw).
  exists table. split_and!; [done..|]. intros i j k Hi Hj Hk.
  destruct (Hclosed i j Hi Hj) as (k0 & Hk0 & Hm0 & Hu).
  destruct (Hval i j Hi Hj) as [[_ Hnone]|(k1 & Hk1 & Hm1 & He & _)].
  { exfalso. by apply (Hnone k0). }
  rewrite He, int32_small by lia.
  rewrite (Hu k1 Hk1 Hm1). split.
  - intros Heq. by replace k with k0 by lia.
  - intros Hm. by rewrite (Hu k Hk Hm).
Qed.

Lemma sign_group_wf : wf_ndarray3 sign_group.
Proof. split; [reflexivity|]. repeat constructor. Qed.

Lemma sign_group_closed (i j : nat) :
  i < 2 → j < 2 →
  ∃ k, k < 2 ∧ product_matches 1 1e-8%float (data sign_group) i j k
    ∧ ∀ k', k' < 2 → product_matches 1 1e-8%float (data sign_group) i j k' → k' = k.
Proof.
  intros Hi Hj.
  assert (∀ i j k, i < 2 → j < 2 → k < 2 →
            product_matches 1 1e-8%float (data sign_group) i j k
            ↔ k = (i + j) `mod` 2) as Hm.
  { clear. intros i j k Hi Hj Hk.
    destruct i as [|[|i]]; [| |lia]; destruct j as [|[|j]]; try lia;
      (destruct k as [|[|k]]; [| |lia]); split; try done; try (intros; lia);
      try (intros _ a b Ha Hb; destruct a; [|lia]; destruct b; [|lia];
           vm_compute; reflexivity);
      intros H; specialize (H 0 0 (le_n 1) (le_n 1)); vm_compute in H; discriminate. }
  exists ((i + j) `mod` 2).
  assert ((i + j) `mod` 2 < 2) as Hlt by (apply Nat.mod_upper_bound; lia).
  split_and!; [done|by apply Hm|]. intros k' Hk' H. by apply Hm in H.
Qed.

Lemma make_multiplication_table_correct_witness :
  ∃ table, make_multiplication_table sign_group None = Ok table
    ∧ square 2 table
    ∧ ∀ i j k, i < 2 → j < 2 → k < 2 →
        entry table i j = Z.of_nat k
        ↔ product_matches 1 1e-8%float (data sign_group) i j k.
Proof.
  refine (make_multiplication_table_correct sign_group None 2 1 eq_refl
            sign_group_wf _ sign_group_closed).
  vm_compute. discriminate.
Defined.

(** C5. On n matrices of dimension d×d, closed under multiplication or
    not, [make_multiplication_table] returns normally, and every entry
    (i, j) for which no [matrices[k]] matches [matrices[i] @ matrices[j]]
    is left at its default 0. *)
Theorem make_multiplication_table_not_closed (matrices : ndarray3)
    (tol_kw : option float) (n d : nat) :
  shape matrices = (n, d, d) → wf_ndarray3 matrices →
  ∃ table, make_multiplication_table matrices tol_kw = Ok table
    ∧ square n table
    ∧ ∀ i j, i < n → j < n →
        (∀ k, k < n →
           ¬ product_matches d (default default_tol tol_kw) (data matrices) i j k) →
        entry table i j = 0%Z.
Proof.
  intros Hshape Hwf.
  destruct (make_multiplication_table_entries matrices tol_kw n d Hshape Hwf)
    as (table & Hrun & Hsq & Hval).
  exists table. split_and!; [done..|]. intros i j Hi Hj Hnone.
  destruct (Hval i j Hi Hj) as [[He _]|(k & Hk & Hm & _)]; [done|].
  exfalso. by apply (Hnone k).
Qed.

Lemma make_multiplication_table_not_closed_witness :
  make_multiplication_table two_alone None = Ok [[0%Z]]
  ∧ ∃ table, make_multiplication_table two_alone None = Ok table
      ∧ square 1 table
      ∧ ∀ i j, i < 1 → j < 1 →
          (∀ k, k < 1 →
             ¬ product_matches 1 (default default_tol None) (data two_alone) i j k) →
          entry table i j = 0%Z.
Proof.
  split; [vm_compute; reflexivity|].
  refine (make_multiplication_table_not_closed two_alone None 1 1 eq_refl _).
  split; [reflexivity|]. repeat constructor.
Defined.

(** C7. When several candidates [k] match the product
    [matrices[i] @ matrices[j]] within the tolerance, the entry (i, j) of
    the returned table is the last one written, which is the largest
    matching [k]: the matches are written in increasing order of [k]. *)
Theorem make_multiplication_table_last_match (matrices : ndarray3)
    (tol_kw : option float) (n d : nat) :
  shape matrices = (n, d, d) → wf_ndarray3 matrices → (Z.of_nat n ≤ 2 ^ 31)%Z →
  ∃ table, make_multiplication_table matrices tol_kw = Ok table
    ∧ ∀ i j k, i < n → j < n → k < n →
        product_matches d (default default_tol tol_kw) (data matrices) i j k →
        (∀ k', k' < n →
           product_matches d (default default_tol tol_kw) (data matrices) i j k' →
           k' ≤ k) →
        entry table i j = Z.of_nat k.
Proof.
  intros Hshape Hwf Hn.
  destruct (make_multiplication_table_entries matrices tol_kw n d Hshape Hwf)
    as (table & Hrun & Hsq & Hval).
  exists table. split; [done|]. intros i j k Hi Hj Hk Hm Hmax.
  destruct (Hval i j Hi Hj) as [[_ Hnone]|(k1 & Hk1 & Hm1 & He & Hmax1)].
  { exfalso. by apply (Hnone k). }
  rewrite He, int32_small by lia.
  assert (k1 = k) as -> by (specialize (Hmax k1 Hk1 Hm1); specialize (Hmax1 k Hk Hm); lia).
  done.
Qed.

Lemma make_multiplication_table_last_match_witness :
  make_multiplication_table near_duplicates None = Ok [[1; 1]; [1; 1]]%Z
  ∧ ∃ table, make_multiplication_table near_duplicates None = Ok table
      ∧ ∀ i j k, i < 2 → j < 2 → k < 2 →
          product_matches 1 (default default_tol None) (data near_duplicates) i j k →
          (∀ k', k' < 2 →
             product_matches 1 (default default_tol None) (data near_duplicates) i j k' →
             k' ≤ k) →
          entry table i j = Z.of_nat k.
Proof.
  split; [vm_compute; reflexivity|].
  refine (make_multiplication_table_last_match near_duplicates None 2 1 eq_refl _ _).
  - split; [reflexivity|]. repeat constructor.
  - vm_compute. discriminate.
Defined.

(** C10. [make_multiplication_table] requires square matrices: on an
    array of shape [n, d, d2] with d ≠ d2 it fails with an assertion error,
    whatever the array holds -- no product is formed. *)
Theorem make_multiplication_table_non_square (matrices : ndarray3)
    (tol_kw : option float) (n d d2 : nat) :
  shape matrices = (n, d, d2) → d ≠ d2 →
  make_multiplication_table matrices tol_kw = Raise AssertionError.
Proof.
  intros Hshape Hne. unfold make_multiplication_table. rewrite Hshape.
  by rewrite (proj2 (Nat.eqb_neq d d2) Hne).
Qed.

Lemma make_multiplication_table_non_square_witness :
  make_multiplication_table wide_matrix None = Raise AssertionError.
Proof.
  refine (make_multiplication_table_non_square wide_matrix None 1 1 2 eq_refl _). lia.
Defined.

(** * Further properties of the four functions *)

(** ** inverses: when it succeeds and how it fails *)

Lemma elem_of_cells (n : nat) (t : list (list Z)) (e : Z) (i j : nat) :
  (i, j) ∈ cells_equal_to n t e ↔ i < n ∧ j < n ∧ entry t i j = e.
Proof.
  unfold cells_equal_to. rewrite list_elem_of_filter, list_elem_of_join. simpl. split.
  - intros (He & l & Hin & Hl). apply list_elem_of_fmap in Hl as (a & -> & Ha).
    apply list_elem_of_fmap in Hin as (b & [= -> ->] & Hb).
    apply elem_of_seq in Ha, Hb. split_and!; [lia..|done].
  - intros (Hi & Hj & He). split; [done|].
    exists (pair i <$> seq 0 n). split.
    + apply list_elem_of_fmap. exists j. split; [done|]. apply elem_of_seq. lia.
    + apply list_elem_of_fmap. exists i. split; [done|]. apply elem_of_seq. lia.
Qed.

Lemma NoDup_fst_inj {A B} (l : list (A * B)) (x : A) (y1 y2 : B) :
  NoDup l.*1 → (x, y1) ∈ l → (x, y2) ∈ l → y1 = y2.
Proof.
  intros Hnd [a Ha]%list_elem_of_lookup [b Hb]%list_elem_of_lookup.
  assert (a = b) as ->.
  { apply (NoDup_lookup _ _ _ x Hnd); by rewrite list_lookup_fmap, ?Ha, ?Hb. }
  congruence.
Qed.

(** The scan of a table in which every row index occurs once, in order. *)
Lemma cells_rows_seq (n : nat) (t : list (list Z)) (e : Z) (i : nat) :
  (cells_equal_to n t e).*1 = seq 0 n → i < n →
  ∃ j, (cells_equal_to n t e).*2 !! i = Some j ∧ j < n
    ∧ ∀ j', j' < n → entry t i j' = e ↔ j' = j.
Proof.
  intros Hrows Hi.
  assert ((cells_equal_to n t e).*1 !! i = Some i) as Hlk
    by (by rewrite Hrows, lookup_seq_lt).
  rewrite list_lookup_fmap in Hlk.
  destruct (cells_equal_to n t e !! i) as [[i' j]|] eqn:Hc; simplify_eq/=.
  assert ((i, j) ∈ cells_equal_to n t e) as Hin by (by eapply list_elem_of_lookup_2).
  pose proof Hin as (_ & Hj & He)%elem_of_cells.
  exists j. split_and!; [by rewrite list_lookup_fmap, Hc|done|].
  intros j' Hj'. split; [|by intros ->].
  intros He'. apply (NoDup_fst_inj (cells_equal_to n t e) i).
  - rewrite Hrows. apply NoDup_seq.
  - apply elem_of_cells. done.
  - done.
Qed.

Lemma inverses_Ok_columns (n : nat) (t : list (list Z)) (e : nat) (inv : list nat) :
  square n t → identity t = Ok e → inverses t = Ok inv →
  length inv = n
  ∧ ∀ i, i < n →
      ∃ j, inv !! i = Some j ∧ j < n
        ∧ ∀ j', j' < n → entry t i j' = Z.of_nat e ↔ j' = j.
Proof.
  intros Hsq He. rewrite (inverses_unfold n t e) by done.
  case_decide as Hrows; [|done]. intros [= <-]. split.
  - rewrite length_fmap, <- (length_fmap fst), Hrows. apply length_seq.
  - intros i Hi. by apply cells_rows_seq.
Qed.

(** X1. [inverses] calls [identity] first: on a table without exactly one
    identity row it fails with the error of [identity], "No or multiple
    identities", and not with its own. *)
Theorem inverses_identity_error (n : nat) (t : list (list Z)) :
  square n t →
  (¬ ∃ i, identity_row n t i ∧ ∀ i', identity_row n t i' → i' = i) →
  inverses t = Raise (ValueError "No or multiple identities").
Proof.
  intros Hsq Hno. unfold inverses.
  destruct (identity_cases t) as [[i Hi]|Hr].
  - exfalso. apply Hno. exists i. by apply (identity_Ok n).
  - by rewrite Hr.
Qed.

Lemma inverses_identity_error_witness :
  inverses [[1;0];[0;0]]%Z = Raise (ValueError "No or multiple identities").
Proof.
  refine (inverses_identity_error 2 [[1;0];[0;0]]%Z _ _).
  - split; [reflexivity|]. repeat constructor.
  - intros (i & Hi & _). unfold identity_row in Hi.
    destruct i as [|[|i]]; discriminate.
Defined.

(** X2. The exact success condition of [inverses], on any n×n table whose
    identity is [e], valid group table or not: it returns [inv] if and only
    if [inv] has length n and, for every row i, [inv[i]] is the one column
    of that row holding [e]. *)
Theorem inverses_Ok_iff (n : nat) (t : list (list Z)) (e : nat) (inv : list nat) :
  square n t → identity t = Ok e →
  inverses t = Ok inv
  ↔ length inv = n
    ∧ ∀ i, i < n →
        ∃ j, inv !! i = Some j ∧ j < n
          ∧ ∀ j', j' < n → entry t i j' = Z.of_nat e ↔ j' = j.
Proof.
  intros Hsq He. split.
  - by apply inverses_Ok_columns.
  - intros [Hlen Hinv].
    rewrite (inverses_of_unique n t e (λ i, default 0 (inv !! i))); [| done..|].
    + f_equal. apply list_eq. intros i. rewrite list_lookup_fmap.
      destruct (decide (i < n)) as [Hi|Hi].
      * rewrite lookup_seq_lt by done. simpl.
        destruct (Hinv i Hi) as (j & -> & _). done.
      * rewrite lookup_seq_ge by lia. by rewrite lookup_ge_None_2 by lia.
    + intros i Hi. destruct (Hinv i Hi) as (j & -> & Hj & Hu). done.
Qed.

Lemma inverses_Ok_iff_witness :
  inverses [[0;1;2];[1;0;2];[0;2;2]]%Z = Ok [0;1;0].
Proof.
  refine (proj2 (inverses_Ok_iff 3 [[0;1;2];[1;0;2];[0;2;2]]%Z 0 [0;1;0] _ _) _).
  - split; [reflexivity|]. repeat constructor.
  - reflexivity.
  - split; [reflexivity|]. intros i Hi.
    destruct i as [|[|[|i]]]; [exists 0|exists 1|exists 0|lia];
      (split_and!; [reflexivity|lia|]);
      (intros j' Hj'; destruct j' as [|[|[|j']]]; [| | |lia]);
      vm_compute; (split; [try done; discriminate|try done; discriminate]).
Defined.

(** X3. On an n×n table with identity [e], [inverses] fails with "Every
    element does not have one inverse" exactly when some row does not hold
    [e] in exactly one column. *)
Theorem inverses_error_iff (n : nat) (t : list (list Z)) (e : nat) :
  square n t → identity t = Ok e →
  inverses t = Raise (ValueError "Every element does not have one inverse")
  ↔ ¬ ∀ i, i < n → ∃ j, j < n ∧ ∀ j', j' < n → entry t i j' = Z.of_nat e ↔ j' = j.
Proof.
  intros Hsq He. rewrite (inverses_unfold n t e) by done. split.
  - case_decide as Hrows; [done|]. intros _ Hall. apply Hrows.
    destruct (nat_choice n
      (λ i j, j < n ∧ ∀ j', j' < n → entry t i j' = Z.of_nat e ↔ j' = j)) as [f Hf];
      [done|].
    rewrite (cells_of_unique n t _ f) by done.
    rewrite <- list_fmap_compose. apply list_fmap_id.
  - intros Hnot. case_decide as Hrows; [|done]. exfalso. apply Hnot.
    intros i Hi. destruct (cells_rows_seq n t _ i Hrows Hi) as (j & _ & Hj & Hu).
    by exists j.
Qed.

Lemma inverses_error_iff_witness :
  inverses [[0;1];[0;0]]%Z
  = Raise (ValueError "Every element does not have one inverse").
Proof.
  refine (proj2 (inverses_error_iff 2 [[0;1];[0;0]]%Z 0 _ _) _).
  - split; [reflexivity|]. repeat constructor.
  - reflexivity.
  - intros Hall. destruct (Hall 1 (le_n 2)) as (j & Hj & Hu).
    pose proof (proj1 (Hu 0 (Nat.lt_0_succ 1)) eq_refl) as H0.
    pose proof (proj1 (Hu 1 (le_n 2)) eq_refl) as H1. congruence.
Defined.

(** X4. Whenever [inverses] succeeds, the identity is its own inverse. *)
Theorem inverses_of_identity (n : nat) (t : list (list Z)) (e : nat) (inv : list nat) :
  square n t → identity t = Ok e → inverses t = Ok inv → inv !! e = Some e.
Proof.
  intros Hsq He Hinv.
  apply (inverses_Ok_columns n t e inv Hsq He) in Hinv as [_ Hinv].
  apply (identity_Ok n t e Hsq) in He as [Hrow _].
  assert (e < n) as Hlt.
  { apply lookup_lt_Some in Hrow. by rewrite (proj1 Hsq) in Hrow. }
  destruct (Hinv e Hlt) as (j & Hj & _ & Hu). rewrite Hj. f_equal. symmetry.
  apply Hu; [done|]. apply (entry_lookup _ _ _ _ _ Hrow). by apply lookup_arange.
Qed.

Lemma inverses_of_identity_witness : [0;2;1] !! 0 = Some 0.
Proof.
  refine (inverses_of_identity 3 c3_table 0 [0;2;1] c3_table_square _ _); reflexivity.
Defined.

(** ** Associative tables: two-sided identity and inverses *)

Lemma valid_entry_range (n : nat) (t : list (list Z)) (i j : nat) :
  valid_group_table n t → i < n → j < n → (0 ≤ entry t i j < Z.of_nat n)%Z.
Proof.
  intros Hv Hi Hj. apply elem_of_arange. rewrite <- (vg_rows _ _ Hv i Hi).
  destruct (square_lookup n t i j (vg_square _ _ Hv) Hi Hj) as (row & Hrow & _ & Hz).
  rewrite (list_lookup_total_correct _ _ _ Hrow). by eapply list_elem_of_lookup_2.
Qed.

Lemma valid_right_cancel (n : nat) (t : list (list Z)) (a b y : nat) :
  valid_group_table n t → a < n → b < n → y < n →
  entry t a y = entry t b y → a = b.
Proof.
  intros Hv Ha Hb Hy Heq.
  assert (NoDup (column t y)) as Hnd
    by (rewrite (vg_columns _ _ Hv y Hy); apply NoDup_arange).
  eapply (NoDup_lookup _ _ _ _ Hnd).
  - by rewrite (column_lookup n) by (done || apply (vg_square _ _ Hv)).
  - rewrite (column_lookup n) by (done || apply (vg_square _ _ Hv)). by rewrite Heq.
Qed.

Lemma valid_two_sided_identity (n : nat) (t : list (list Z)) (e : nat) :
  valid_group_table n t → associative n t → identity t = Ok e →
  e < n ∧ ∀ j, j < n → entry t e j = Z.of_nat j ∧ entry t j e = Z.of_nat j.
Proof.
  intros Hv Hassoc He.
  apply (identity_Ok n t e (vg_square _ _ Hv)) in He as [Hrow _].
  assert (e < n) as Hlt.
  { apply lookup_lt_Some in Hrow. by rewrite (proj1 (vg_square _ _ Hv)) in Hrow. }
  assert (∀ j, j < n → entry t e j = Z.of_nat j) as Hleft.
  { intros j Hj. apply (entry_lookup _ _ _ _ _ Hrow). by apply lookup_arange. }
  split; [done|]. intros j Hj. split; [by apply Hleft|].
  pose proof (valid_entry_range n t j e Hv Hj Hlt) as Hr.
  assert (Z.to_nat (entry t j e) = j) as Heq; [|lia].
  apply (valid_right_cancel n t _ _ e Hv); [lia|done..|].
  rewrite (Hassoc j e e) by done. rewrite (Hleft e Hlt). by rewrite Nat2Z.id.
Qed.

(** X5. On a valid group table whose operation is associative, the index
    that [identity] returns is a two-sided identity: [table[e, j] = j] and
    [table[j, e] = j] for every j, although only the rows are tested. *)
Theorem identity_two_sided (n : nat) (t : list (list Z)) :
  valid_group_table n t → associative n t →
  ∃ e, identity t = Ok e ∧ e < n
    ∧ ∀ j, j < n → entry t e j = Z.of_nat j ∧ entry t j e = Z.of_nat j.
Proof.
  intros Hv Hassoc. destruct (valid_identity n t Hv) as (e & He & Hlt).
  exists e. split_and!; [done..|].
  by apply (valid_two_sided_identity n t e Hv Hassoc He).
Qed.

Lemma c3_table_associative : associative 3 c3_table.
Proof.
  intros a b c Ha Hb Hc.
  destruct a as [|[|[|a]]]; [| | |lia]; (destruct b as [|[|[|b]]]; [| | |lia]);
    (destruct c as [|[|[|c]]]; [| | |lia]); reflexivity.
Qed.

Lemma identity_two_sided_witness :
  ∃ e, identity c3_table = Ok e ∧ e < 3
    ∧ ∀ j, j < 3 → entry c3_table e j = Z.of_nat j ∧ entry c3_table j e = Z.of_nat j.
Proof. exact (identity_two_sided 3 c3_table c3_table_valid c3_table_associative). Defined.

Lemma valid_two_sided_inverse (n : nat) (t : list (list Z)) (e : nat) (f : nat → nat) :
  valid_group_table n t → associative n t → identity t = Ok e →
  (∀ i, i < n → f i < n ∧ ∀ j, j < n → entry t i j = Z.of_nat e ↔ j = f i) →
  ∀ i, i < n → entry t (f i) i = Z.of_nat e.
Proof.
  intros Hv Hassoc He Hf i Hi.
  destruct (valid_two_sided_identity n t e Hv Hassoc He) as [_ Hid].
  destruct (Hf i Hi) as [Hfi Hu].
  assert (entry t i (f i) = Z.of_nat e) as Hr by (by apply Hu).
  pose proof (valid_entry_range n t (f i) i Hv Hfi Hi) as Hrange.
  assert (Z.to_nat (entry t (f i) i) = e) as Heq; [|lia].
  assert (e < n) as Hlt by (by destruct (valid_two_sided_identity n t e Hv Hassoc He)).
  apply (valid_right_cancel n t _ _ (f i) Hv); [lia|done..|].
  rewrite (Hassoc (f i) i (f i)) by done.
  rewrite Hr, Nat2Z.id.
  by rewrite (proj2 (Hid (f i) Hfi)), (proj1 (Hid (f i) Hfi)).
Qed.

(** X6. On a valid group table whose operation is associative, the
    inverses that [inverses] returns are two-sided, and taking the inverse
    twice gives back the element: with [j = inv[i]], [table[i, j]] and
    [table[j, i]] are both the identity and [inv[j] = i]. *)
Theorem inverses_two_sided (n : nat) (t : list (list Z)) :
  valid_group_table n t → associative n t →
  ∃ e inv, identity t = Ok e ∧ inverses t = Ok inv
    ∧ ∀ i, i < n →
        ∃ j, inv !! i = Some j ∧ j < n
          ∧ entry t i j = Z.of_nat e ∧ entry t j i = Z.of_nat e
          ∧ inv !! j = Some i.
Proof.
  intros Hv Hassoc.
  destruct (valid_inverse_map n t Hv) as (e & f & He & Hlt & Hf & Hinv).
  assert (∀ i, i < n → (f <$> seq 0 n) !! i = Some (f i)) as Hlk
    by (intros i Hi; by rewrite list_lookup_fmap, lookup_seq_lt).
  pose proof (valid_two_sided_inverse n t e f Hv Hassoc He Hf) as Hleft.
  exists e, (f <$> seq 0 n). split_and!; [done..|]. intros i Hi.
  destruct (Hf i Hi) as [Hfi Hu]. exists (f i). split_and!; [by apply Hlk|done| | |].
  - by apply Hu.
  - by apply Hleft.
  - rewrite Hlk by done. f_equal. symmetry.
    destruct (Hf (f i) Hfi) as [_ Hu']. apply Hu'; [done|]. by apply Hleft.
Qed.

Lemma inverses_two_sided_witness :
  ∃ e inv, identity c3_table = Ok e ∧ inverses c3_table = Ok inv
    ∧ ∀ i, i < 3 →
        ∃ j, inv !! i = Some j ∧ j < 3
          ∧ entry c3_table i j = Z.of_nat e ∧ entry c3_table j i = Z.of_nat e
          ∧ inv !! j = Some i.
Proof. exact (inverses_two_sided 3 c3_table c3_table_valid c3_table_associative). Defined.

(** ** regular_representation: a representation *)

Lemma shape2_ext {A} `{!Inhabited A} (n m : nat) (a b : list (list A)) :
  shape2 n m a → shape2 n m b →
  (∀ i j, i < n → j < m → (a !!! i) !!! j = (b !!! i) !!! j) → a = b.
Proof.
  intros Ha Hb Heq. apply list_eq. intros i.
  destruct (decide (i < n)) as [Hi|Hi].
  - destruct (lookup_lt_is_Some_2 a i) as [ra Hra]; [rewrite (proj1 Ha); lia|].
    destruct (lookup_lt_is_Some_2 b i) as [rb Hrb]; [rewrite (proj1 Hb); lia|].
    rewrite Hra, Hrb. f_equal.
    pose proof (proj1 (Forall_lookup _ _) (proj2 Ha) _ _ Hra) as Hla.
    pose proof (proj1 (Forall_lookup _ _) (proj2 Hb) _ _ Hrb) as Hlb.
    simpl in Hla, Hlb. apply list_eq. intros j.
    destruct (decide (j < m)) as [Hj|Hj].
    + specialize (Heq i j Hi Hj).
      rewrite (list_lookup_total_correct _ _ _ Hra),
        (list_lookup_total_correct _ _ _ Hrb) in Heq.
      destruct (lookup_lt_is_Some_2 ra j) as [x Hx]; [lia|].
      destruct (lookup_lt_is_Some_2 rb j) as [y Hy]; [lia|].
      rewrite (list_lookup_total_correct _ _ _ Hx),
        (list_lookup_total_correct _ _ _ Hy) in Heq. congruence.
    + by rewrite !lookup_ge_None_2 by lia.
  - rewrite !lookup_ge_None_2; [done|rewrite (proj1 Hb); lia|rewrite (proj1 Ha); lia].
Qed.

Lemma matmul_lookup (d : nat) (a b : list (list float)) (i k : nat) :
  i < d → k < d → (np.matmul d a b !!! i) !!! k = np.dot_ik d a b i k.
Proof.
  intros Hi Hk. unfold np.matmul.
  rewrite (list_lookup_total_correct _ i ((λ k, np.dot_ik d a b i k) <$> seq 0 d))
    by (by rewrite list_lookup_fmap, lookup_seq_lt).
  apply list_lookup_total_correct. by rewrite list_lookup_fmap, lookup_seq_lt.
Qed.

(** A sum of products in which one factor is 0 except at [j0], where it is
    1, and the other factor is 0 or 1 throughout: the binary64 sum is the
    other factor at [j0], exactly. *)
Lemma foldl_one_hot (l : list nat) (f : float → nat → float) (x : nat → float)
    (j0 : nat) :
  (∀ acc j, j ∈ l →
     f acc j = (acc + x j * (if decide (j = j0) then 1 else 0))%float) →
  (∀ j, j ∈ l → x j = 0%float ∨ x j = 1%float) →
  NoDup l → j0 ∈ l → foldl f 0%float l = x j0.
Proof.
  intros Hf Hx Hnd Hin.
  assert (∀ l' acc, (∀ j, j ∈ l' → j ∈ l) → j0 ∉ l' →
            acc = 0%float ∨ acc = 1%float → foldl f acc l' = acc) as Hrest.
  { induction l' as [|j l' IH]; intros acc Hsub Hnot Hacc; [done|]. simpl.
    rewrite Hf by (apply Hsub; left).
    rewrite decide_False by (intros ->; apply Hnot; left).
    assert ((acc + x j * 0)%float = acc) as ->.
    { destruct (Hx j) as [->| ->]; [apply Hsub; left| |];
        destruct Hacc as [->| ->]; reflexivity. }
    apply IH; [intros; apply Hsub; by right|intros ?; apply Hnot; by right|done]. }
  assert (∀ l', (∀ j, j ∈ l' → j ∈ l) → NoDup l' → j0 ∈ l' →
            foldl f 0%float l' = x j0) as Hmain.
  { induction l' as [|j l' IH]; intros Hsub Hnd' Hin'; [by apply elem_of_nil in Hin'|].
    apply NoDup_cons in Hnd' as [Hj Hnd']. simpl.
    rewrite Hf by (apply Hsub; left).
    destruct (decide (j = j0)) as [->|Hne].
    - assert ((0 + x j0 * 1)%float = x j0) as ->
        by (destruct (Hx j0) as [->| ->]; [apply Hsub; left| |]; reflexivity).
      apply Hrest; [intros; apply Hsub; by right|done|apply Hx, Hsub; left].
    - assert ((0 + x j * 0)%float = 0%float) as ->
        by (destruct (Hx j) as [->| ->]; [apply Hsub; left| |]; reflexivity).
      apply IH; [intros; apply Hsub; by right|done|].
      apply elem_of_cons in Hin' as [?|?]; [congruence|done]. }
  by apply Hmain.
Qed.

Lemma regular_representation_product (n : nat) (t : list (list Z))
    (D : list (list (list float))) (g h : nat) :
  (∀ i j, i < n → j < n → (0 ≤ entry t i j < Z.of_nat n)%Z) →
  associative n t → shape3 n n n D →
  (∀ g r h, g < n → r < n → h < n →
     ((D !!! g) !!! r) !!! h
     = if decide (Z.of_nat r = entry t g h) then 1%float else 0%float) →
  g < n → h < n →
  np.matmul n (D !!! g) (D !!! h) = D !!! Z.to_nat (entry t g h).
Proof.
  intros Hrange Hassoc Hsh Hval Hg Hh.
  pose proof (Hrange g h Hg Hh) as Hgh.
  apply (shape2_ext n n); [apply matmul_shape|apply (shape3_plane n n n); [done|lia]|].
  intros r c Hr Hc. rewrite matmul_lookup by done.
  pose proof (Hrange h c Hh Hc) as Hhc.
  unfold np.dot_ik.
  rewrite (foldl_one_hot (seq 0 n) _ (λ j, ((D !!! g) !!! r) !!! j)
             (Z.to_nat (entry t h c))).
  - rewrite !Hval by lia. rewrite (Hassoc g h c) by done. done.
  - intros acc j Hj%elem_of_seq. f_equal. f_equal.
    rewrite Hval by lia. repeat case_decide; try done; lia.
  - intros j Hj%elem_of_seq. rewrite Hval by lia. case_decide; auto.
  - apply NoDup_seq.
  - apply elem_of_seq. lia.
Qed.

(** X7. The regular representation is a representation: for a table with
    entries in range whose operation is associative, the matrix product
    [D[g] @ D[h]] is [D[table[g, h]]], entry by entry in binary64. *)
Theorem regular_representation_homomorphism (n : nat) (t : list (list Z)) :
  square n t →
  (∀ i j, i < n → j < n → (0 ≤ entry t i j < Z.of_nat n)%Z) →
  associative n t →
  ∃ D, regular_representation t = Ok D
    ∧ ∀ g h, g < n → h < n →
        np.matmul n (D !!! g) (D !!! h) = D !!! Z.to_nat (entry t g h).
Proof.
  intros Hsq Hrange Hassoc.
  destruct (regular_representation_entries n t Hsq Hrange) as (D & Hrun & Hsh & Hval).
  exists D. split; [done|]. intros g h Hg Hh.
  by apply (regular_representation_product n t D g h).
Qed.

Lemma regular_representation_homomorphism_witness :
  ∃ D, regular_representation c3_table = Ok D
    ∧ ∀ g h, g < 3 → h < 3 →
        np.matmul 3 (D !!! g) (D !!! h) = D !!! Z.to_nat (entry c3_table g h).
Proof.
  exact (regular_representation_homomorphism 3 c3_table c3_table_square
           c3_table_range c3_table_associative).
Defined.

(** X8. The matrix of the identity element is the identity matrix: if row
    [e] of the table is [0, 1, ..., n-1], then [D[e][r, c]] is 1 on the
    diagonal and 0 elsewhere. *)
Theorem regular_representation_identity (n : nat) (t : list (list Z)) (e : nat) :
  square n t →
  (∀ i j, i < n → j < n → (0 ≤ entry t i j < Z.of_nat n)%Z) →
  identity t = Ok e →
  ∃ D, regular_representation t = Ok D
    ∧ ∀ r c, r < n → c < n →
        ((D !!! e) !!! r) !!! c = if decide (r = c) then 1%float else 0%float.
Proof.
  intros Hsq Hrange He.
  destruct (regular_representation_entries n t Hsq Hrange) as (D & Hrun & Hsh & Hval).
  apply (identity_Ok n t e Hsq) in He as [Hrow _].
  assert (e < n) as Hlt.
  { apply lookup_lt_Some in Hrow. by rewrite (proj1 Hsq) in Hrow. }
  exists D. split; [done|]. intros r c Hr Hc. rewrite Hval by done.
  rewrite (entry_lookup _ _ _ _ _ Hrow (lookup_arange n c Hc)).
  repeat case_decide; try done; lia.
Qed.

Lemma regular_representation_identity_witness :
  ∃ D, regular_representation c3_table = Ok D
    ∧ ∀ r c, r < 3 → c < 3 →
        ((D !!! 0) !!! r) !!! c = if decide (r = c) then 1%float else 0%float.
Proof.
  exact (regular_representation_identity 3 c3_table 0 c3_table_square
           c3_table_range eq_refl).
Defined.

(** ** regular_representation: entries used as indices *)

Lemma norm_index_wrap (len : nat) (z : Z) :
  (- Z.of_nat len ≤ z < Z.of_nat len)%Z →
  np.norm_index len z = Ok (wrap_index len z) ∧ wrap_index len z < len.
Proof.
  intros Hz. unfold np.norm_index, wrap_index.
  destruct (decide (0 ≤ z < Z.of_nat len)%Z) as [Hpos|Hneg].
  - rewrite Z.mod_small by done. split; [done|lia].
  - rewrite decide_True by lia.
    assert (z `mod` Z.of_nat len = z + Z.of_nat len)%Z as ->.
    { symmetry. apply (Z.mod_unique _ _ (-1)); lia. }
    split; [done|lia].
Qed.



Section setitem3_indices.
Context {A : Type} `{!Inhabited A}.
Implicit Types (a : list (list (list A))) (idx : list (Z * Z * Z * A)).


(** Indices within [-len, len) on every axis: the assignment does not
    raise, and each index denotes the position it wraps to. *)
Lemma setitem3_wrapped n m p a idx :
  shape3 n m p a →
  Forall (λ w, (- Z.of_nat n ≤ w.1.1.1 < Z.of_nat n)%Z
             ∧ (- Z.of_nat m ≤ w.1.1.2 < Z.of_nat m)%Z
             ∧ (- Z.of_nat p ≤ w.1.2 < Z.of_nat p)%Z) idx →
  ∃ a', np.setitem3 n m p a idx = Ok a'
    ∧ shape3 n m p a'
    ∧ ∀ i j k, i < n → j < m → k < p →
        ((a' !!! i) !!! j) !!! k
        = last_written (i, j, k)
            ((λ w : Z * Z * Z * A,
                (wrap_index n w.1.1.1, wrap_index m w.1.1.2, wrap_index p w.1.2, w.2))
               <$> idx)
            (((a !!! i) !!! j) !!! k).
Proof.
  revert a. induction idx as [|[[[i0 j0] k0] v] idx IH]; intros a Hsh Hin.
  - exists a. split_and!; done.
  - apply Forall_cons in Hin as [(Hi0 & Hj0 & Hk0) Hin]. simpl in Hi0, Hj0, Hk0.
    destruct (norm_index_wrap n i0 Hi0) as [Hni Hwi].
    destruct (norm_index_wrap m j0 Hj0) as [Hnj Hwj].
    destruct (norm_index_wrap p k0 Hk0) as [Hnk Hwk].
    destruct (IH (np.write3 (wrap_index n i0) (wrap_index m j0) (wrap_index p k0) v a))
      as (a' & Hrun & Hsh' & Hval); [by apply write3_shape|done|].
    exists a'. split_and!; [|done|].
    + simpl. rewrite Hni. simpl. rewrite Hnj. simpl. rewrite Hnk. simpl. done.
    + intros i j k Hi Hj Hk. rewrite Hval by done.
      rewrite fmap_cons, last_written_cons. f_equal. simpl.
      by rewrite (write3_lookup n m p).
Qed.
End setitem3_indices.

Lemma regular_representation_unfold (n : nat) (t : list (list Z)) :
  square n t →
  regular_representation t
  = np.setitem3 n n n (np.zeros3 0%float n n n) (regular_index n t).
Proof.
  intros Hsq. pose proof Hsq as [Hlen Hrows].
  unfold regular_representation. rewrite Hlen. f_equal.
  unfold np.meshgrid_ij.
  assert (length (replicate n (np.arange n)) = n) as Hh by apply length_replicate.
  assert (Forall (λ y : list Z, length y = n) (replicate n (np.arange n))) as Hhr
    by (apply Forall_replicate, length_arange).
  rewrite (zip_with_join pair n t) by (done || congruence).
  rewrite (zip_with_join _ n).
  2: { rewrite length_fmap, length_arange, length_zip_with, Hlen, Hh. lia. }
  2: { apply Forall_fmap, Forall_forall. intros a _. simpl. apply length_replicate. }
  2: { apply Forall_forall. intros r Hr.
       apply list_elem_of_lookup in Hr as [i Hr].
       apply lookup_zip_with_Some in Hr as (x & y & -> & Hx & Hy).
       rewrite length_zip_with.
       rewrite (proj1 (Forall_lookup _ _) Hrows _ _ Hx).
       rewrite (proj1 (Forall_lookup _ _) Hhr _ _ Hy). lia. }
  unfold regular_index. f_equal. apply list_eq. intros a.
  rewrite !lookup_zip_with, !list_lookup_fmap.
  destruct (decide (a < n)) as [Ha|Ha].
  - rewrite lookup_arange, lookup_seq_lt, lookup_replicate_2 by done.
    destruct (lookup_lt_is_Some_2 t a) as [row Hrow]; [lia|].
    rewrite Hrow. simpl. f_equal.
    apply list_eq. intros b.
    rewrite !lookup_zip_with, !list_lookup_fmap.
    destruct (decide (b < n)) as [Hb|Hb].
    + destruct (square_lookup n t a b Hsq Ha Hb) as (row' & Hrow' & _ & Hz).
      simplify_eq.
      by rewrite lookup_replicate_2, Hz, lookup_arange, lookup_seq_lt by done.
    + rewrite lookup_seq_ge by lia. simpl.
      rewrite (proj1 (lookup_replicate_None n (Z.of_nat a) b)) by lia. done.
  - rewrite lookup_seq_ge by lia. unfold np.arange.
    rewrite lookup_seqZ_ge by lia. done.
Qed.

Lemma elem_of_regular_index (n : nat) (t : list (list Z)) (w : Z * Z * Z * float) :
  w ∈ regular_index n t
  ↔ ∃ a b, a < n ∧ b < n ∧ w = (Z.of_nat a, entry t a b, Z.of_nat b, 1%float).
Proof.
  unfold regular_index. rewrite list_elem_of_join. split.
  - intros (l & Hw & Hl). apply list_elem_of_fmap in Hl as (a & -> & Ha).
    apply list_elem_of_fmap in Hw as (b & -> & Hb).
    apply elem_of_seq in Ha, Hb. exists a, b. split_and!; [lia..|done].
  - intros (a & b & Ha & Hb & ->).
    exists ((λ b, (Z.of_nat a, entry t a b, Z.of_nat b, 1%float)) <$> seq 0 n). split.
    + apply list_elem_of_fmap. exists b. split; [done|]. apply elem_of_seq. lia.
    + apply list_elem_of_fmap. exists a. split; [done|]. apply elem_of_seq. lia.
Qed.



(** X10. Negative entries count from the end: on an n×n table with every
    entry in [-n, n), [regular_representation] succeeds and [D[g][r, h]] is
    1 exactly when [r] is [table[g, h]] modulo n, and 0 otherwise. *)
Theorem regular_representation_wraps (n : nat) (t : list (list Z)) :
  square n t →
  (∀ i j, i < n → j < n → (- Z.of_nat n ≤ entry t i j < Z.of_nat n)%Z) →
  ∃ D, regular_representation t = Ok D
    ∧ shape3 n n n D
    ∧ ∀ g r h, g < n → r < n → h < n →
        ((D !!! g) !!! r) !!! h
        = if decide (Z.of_nat r = (entry t g h `mod` Z.of_nat n)%Z)
          then 1%float else 0%float.
Proof.
  intros Hsq Hrange.
  destruct (setitem3_wrapped n n n (np.zeros3 0%float n n n) (regular_index n t))
    as (D & Hrun & Hsh & Hval).
  { apply zeros3_shape. }
  { apply Forall_forall. intros w Hw.
    apply elem_of_regular_index in Hw as (a & b & Ha & Hb & ->). simpl.
    split; [lia|]. split; [by apply Hrange|lia]. }
  exists D. split_and!; [by rewrite (regular_representation_unfold n t Hsq)|done|].
  intros g r h Hg Hr Hh. rewrite Hval, zeros3_lookup by done.
  rewrite (last_written_const _ _ _ 1%float).
  2: { intros w Hw. apply list_elem_of_fmap in Hw as (w' & -> & Hw').
       by apply elem_of_regular_index in Hw' as (a & b & _ & _ & ->). }
  assert (∀ a, a < n → wrap_index n (Z.of_nat a) = a) as Hwrap.
  { intros a Ha. unfold wrap_index. rewrite Z.mod_small by lia. lia. }
  assert (0 ≤ entry t g h `mod` Z.of_nat n < Z.of_nat n)%Z as Hmod
    by (apply Z.mod_pos_bound; lia).
  destruct (decide (Z.of_nat r = (entry t g h `mod` Z.of_nat n)%Z)) as [Heq|Hne].
  - rewrite decide_True; [done|]. rewrite <- list_fmap_compose.
    apply list_elem_of_fmap. exists (Z.of_nat g, entry t g h, Z.of_nat h, 1%float).
    split; [|apply elem_of_regular_index; by exists g, h].
    simpl. rewrite !Hwrap by done. unfold wrap_index. rewrite <- Heq, Nat2Z.id. done.
  - rewrite decide_False; [done|]. intros Hin. apply Hne.
    rewrite <- list_fmap_compose in Hin.
    apply list_elem_of_fmap in Hin as (w & Hw & Hin).
    apply elem_of_regular_index in Hin as (a & b & Ha & Hb & ->).
    simpl in Hw. rewrite !Hwrap in Hw by done. simplify_eq.
    unfold wrap_index. rewrite Z2Nat.id; [done|].
    apply Z.mod_pos_bound. lia.
Qed.

Lemma regular_representation_wraps_witness :
  regular_representation [[0;-1];[-1;0]]%Z
  = Ok [ [[1;0];[0;1]]; [[0;1];[1;0]] ]%float
  ∧ ∃ D, regular_representation [[0;-1];[-1;0]]%Z = Ok D
      ∧ shape3 2 2 2 D
      ∧ ∀ g r h, g < 2 → r < 2 → h < 2 →
          ((D !!! g) !!! r) !!! h
          = if decide (Z.of_nat r = (entry [[0;-1];[-1;0]]%Z g h `mod` 2)%Z)
            then 1%float else 0%float.
Proof.
  split; [vm_compute; reflexivity|].
  refine (regular_representation_wraps 2 [[0;-1];[-1;0]]%Z _ _).
  - split; [reflexivity|]. repeat constructor.
  - intros i j Hi Hj. destruct i as [|[|i]]; [| |lia];
      (destruct j as [|[|j]]; [| |lia]); vm_compute; (split; [discriminate|reflexivity]).
Defined.

(** ** make_multiplication_table: range of the entries and edge cases *)

(** X11. Whatever the matrices, closed or not, every entry of the table
    that [make_multiplication_table] returns is an index in 0, ..., n-1, so
    that [regular_representation] applied to it never raises. *)
Theorem make_multiplication_table_range (matrices : ndarray3)
    (tol_kw : option float) (n d : nat) :
  shape matrices = (n, d, d) → wf_ndarray3 matrices → (Z.of_nat n ≤ 2 ^ 31)%Z →
  ∃ table D, make_multiplication_table matrices tol_kw = Ok table
    ∧ square n table
    ∧ (∀ i j, i < n → j < n → (0 ≤ entry table i j < Z.of_nat n)%Z)
    ∧ regular_representation table = Ok D
    ∧ shape3 n n n D.
Proof.
  intros Hshape Hwf Hn.
  destruct (make_multiplication_table_entries matrices tol_kw n d Hshape Hwf)
    as (table & Hrun & Hsq & Hval).
  assert (∀ i j, i < n → j < n → (0 ≤ entry table i j < Z.of_nat n)%Z) as Hrange.
  { intros i j Hi Hj.
    destruct (Hval i j Hi Hj) as [[-> _]|(k & Hk & _ & -> & _)]; [lia|].
    rewrite int32_small by lia. lia. }
  destruct (regular_representation_entries n table Hsq Hrange) as (D & HD & Hsh & _).
  by exists table, D.
Qed.

Lemma make_multiplication_table_range_witness :
  ∃ table D, make_multiplication_table two_alone None = Ok table
    ∧ square 1 table
    ∧ (∀ i j, i < 1 → j < 1 → (0 ≤ entry table i j < 1)%Z)
    ∧ regular_representation table = Ok D
    ∧ shape3 1 1 1 D.
Proof.
  refine (make_multiplication_table_range two_alone None 1 1 eq_refl _ _).
  - split; [reflexivity|]. repeat constructor.
  - vm_compute. discriminate.
Defined.

(** X12. Matrices of dimension 0×0 have no entry to compare: every
    candidate matches every product, and every entry of the table is the
    last index, n - 1. *)
Theorem make_multiplication_table_empty_matrices (matrices : ndarray3)
    (tol_kw : option float) (n : nat) :
  shape matrices = (n, 0, 0) → wf_ndarray3 matrices → (Z.of_nat n ≤ 2 ^ 31)%Z →
  ∃ table, make_multiplication_table matrices tol_kw = Ok table
    ∧ square n table
    ∧ ∀ i j, i < n → j < n → entry table i j = (Z.of_nat n - 1)%Z.
Proof.
  intros Hshape Hwf Hn.
  destruct (make_multiplication_table_entries matrices tol_kw n 0 Hshape Hwf)
    as (table & Hrun & Hsq & Hval).
  assert (∀ i j k, product_matches 0 (default default_tol tol_kw) (data matrices) i j k)
    as Hall by (intros i j k a b Ha; lia).
  exists table. split_and!; [done..|]. intros i j Hi Hj.
  destruct (Hval i j Hi Hj) as [[_ Hnone]|(k & Hk & _ & -> & Hmax)].
  - exfalso. apply (Hnone i Hi). apply Hall.
  - rewrite int32_small by lia.
    specialize (Hmax (n - 1) ltac:(lia) (Hall _ _ _)). lia.
Qed.

Lemma make_multiplication_table_empty_matrices_witness :
  make_multiplication_table {| shape := (3, 0, 0); data := [[]; []; []] |} None
  = Ok [[2; 2; 2]; [2; 2; 2]; [2; 2; 2]]%Z
  ∧ ∃ table,
      make_multiplication_table {| shape := (3, 0, 0); data := [[]; []; []] |} None
      = Ok table
      ∧ square 3 table
      ∧ ∀ i j, i < 3 → j < 3 → entry table i j = (Z.of_nat 3 - 1)%Z.
Proof.
  split; [vm_compute; reflexivity|].
  refine (make_multiplication_table_empty_matrices
            {| shape := (3, 0, 0); data := [[]; []; []] |} None 3 eq_refl _ _).
  - split; [reflexivity|]. repeat constructor.
  - vm_compute. discriminate.
Defined.

Lemma abs_ltb_not_positive (x tol : float) :
  PrimFloat.ltb 0 tol = false → PrimFloat.ltb (PrimFloat.abs x) tol = false.
Proof.
  rewrite !ltb_spec, abs_spec.
  change (Prim2SF 0) with (S754_zero false).
  destruct (Prim2SF x) as [sx|sx| |sx mx ex], (Prim2SF tol) as [st|st| |st mt et];
    simpl; try done; destruct st; try done.
Qed.

(** X13. The comparison with the tolerance is strict: with a tolerance
    that is not greater than 0 (zero, negative or NaN) no product matches
    any matrix, however exact, and for matrices with at least one entry the
    table is 0 everywhere. *)
Theorem make_multiplication_table_no_tolerance (matrices : ndarray3)
    (tol : float) (n d : nat) :
  shape matrices = (n, d, d) → wf_ndarray3 matrices → 1 ≤ d →
  PrimFloat.ltb 0 tol = false →
  ∃ table, make_multiplication_table matrices (Some tol) = Ok table
    ∧ square n table
    ∧ (∀ i j k, ¬ product_matches d tol (data matrices) i j k)
    ∧ ∀ i j, i < n → j < n → entry table i j = 0%Z.
Proof.
  intros Hshape Hwf Hd Htol.
  destruct (make_multiplication_table_entries matrices (Some tol) n d Hshape Hwf)
    as (table & Hrun & Hsq & Hval). simpl in Hval.
  assert (∀ i j k, ¬ product_matches d tol (data matrices) i j k) as Hnone.
  { intros i j k Hm. specialize (Hm 0 0 Hd Hd).
    rewrite abs_ltb_not_positive in Hm by done. discriminate. }
  exists table. split_and!; [done..|]. intros i j Hi Hj.
  destruct (Hval i j Hi Hj) as [[He _]|(k & _ & Hm & _)]; [done|].
  by apply Hnone in Hm.
Qed.

Lemma make_multiplication_table_no_tolerance_witness :
  make_multiplication_table sign_group (Some 0%float) = Ok [[0; 0]; [0; 0]]%Z
  ∧ ∃ table, make_multiplication_table sign_group (Some 0%float) = Ok table
      ∧ square 2 table
      ∧ (∀ i j k, ¬ product_matches 1 0%float (data sign_group) i j k)
      ∧ ∀ i j, i < 2 → j < 2 → entry table i j = 0%Z.
Proof.
  split; [vm_compute; reflexivity|].
  refine (make_multiplication_table_no_tolerance sign_group 0%float 2 1 eq_refl
            sign_group_wf (le_n 1) eq_refl).
Defined.

(** ** The three table functions together *)

(** X14. On a valid group table whose operation is associative, the
    matrix of the inverse is the inverse matrix: with [e] from [identity],
    [inv] from [inverses] and [D] from [regular_representation],
    [D[g] @ D[inv[g]]] and [D[inv[g]] @ D[g]] are both [D[e]], which is the
    identity matrix. *)
Theorem regular_representation_inverses (n : nat) (t : list (list Z)) :
  valid_group_table n t → associative n t →
  ∃ e inv D, identity t = Ok e ∧ inverses t = Ok inv
    ∧ regular_representation t = Ok D
    ∧ (∀ r c, r < n → c < n →
         ((D !!! e) !!! r) !!! c = if decide (r = c) then 1%float else 0%float)
    ∧ ∀ g, g < n →
        ∃ j, inv !! g = Some j ∧ j < n
          ∧ np.matmul n (D !!! g) (D !!! j) = D !!! e
          ∧ np.matmul n (D !!! j) (D !!! g) = D !!! e.
Proof.
  intros Hv Hassoc. pose proof (vg_square _ _ Hv) as Hsq.
  assert (∀ i j, i < n → j < n → (0 ≤ entry t i j < Z.of_nat n)%Z) as Hrange
    by (intros; by apply valid_entry_range).
  destruct (valid_inverse_map n t Hv) as (e & f & He & Hlt & Hf & Hinv).
  destruct (valid_two_sided_identity n t e Hv Hassoc He) as [_ Hid].
  pose proof (valid_two_sided_inverse n t e f Hv Hassoc He Hf) as Hleft.
  destruct (regular_representation_entries n t Hsq Hrange) as (D & HD & Hsh & Hval).
  exists e, (f <$> seq 0 n), D. split_and!; [done..| |].
  - intros r c Hr Hc. rewrite Hval by done. rewrite (proj1 (Hid c Hc)).
    repeat case_decide; try done; lia.
  - intros g Hg. destruct (Hf g Hg) as [Hfg Hu]. exists (f g). split_and!.
    + by rewrite list_lookup_fmap, lookup_seq_lt.
    + done.
    + rewrite (regular_representation_product n t D g (f g)) by done.
      by rewrite (proj2 (Hu (f g) Hfg) eq_refl), Nat2Z.id.
    + rewrite (regular_representation_product n t D (f g) g) by done.
      by rewrite (Hleft g Hg), Nat2Z.id.
Qed.

Lemma regular_representation_inverses_witness :
  ∃ e inv D, identity c3_table = Ok e ∧ inverses c3_table = Ok inv
    ∧ regular_representation c3_table = Ok D
    ∧ (∀ r c, r < 3 → c < 3 →
         ((D !!! e) !!! r) !!! c = if decide (r = c) then 1%float else 0%float)
    ∧ ∀ g, g < 3 →
        ∃ j, inv !! g = Some j ∧ j < 3
          ∧ np.matmul 3 (D !!! g) (D !!! j) = D !!! e
          ∧ np.matmul 3 (D !!! j) (D !!! g) = D !!! e.
Proof.
  exact (regular_representation_inverses 3 c3_table c3_table_valid c3_table_associative).
Defined.
